(** * RandomNumberRaffle: a shallow embedding of the raffle contract

    The contract [RandomNumberRaffle] (Solidity 0.8.28) keeps a registry of
    participants, each holding a unique number in [1, 100], and lets the
    admin draw winners among the participants that have not won yet.

    Storage is modelled as a record; Solidity mappings are finite maps read
    with the zero value as default; dynamic arrays are lists; [uint256] and
    [address] values are binary naturals.  Externally callable functions
    return a [Result]: either the new storage together with the returned
    value and the emitted events, or a revert.  A reverted transaction leaves
    the storage as it was ([exec]). *)

From stdpp Require Import gmap strings list fin_maps.
From Stdlib Require Import NArith.

Open Scope N_scope.

(** ** Data model *)

Abbreviation address := N (only parsing).
Abbreviation uint256 := N (only parsing).

Record Participant := mkParticipant {
  name : string;
  number : uint256;
  exists_ : bool
}.

Record WinnerInfo := mkWinnerInfo {
  winnerAddress : address;
  winnerName : string;
  winnerNumber : uint256
}.

Record State := mkState {
  admin : address;
  participants : gmap address Participant;
  assignedNumbers : list uint256;
  participantAddresses : list address;
  winnerAddresses : list address;
  winners : list WinnerInfo;
  numberAssigned : gmap uint256 bool
}.

Definition MAX_NUMBER : uint256 := 100.

Inductive Event :=
| ParticipantEntered (participant : address) (name : string) (number : uint256)
| WinnerDrawn (winner : address) (name : string) (number : uint256)
| LotteryReset (timestamp : uint256).

(** The part of the transaction context the contract reads. *)
Record Env := mkEnv {
  msg_sender : address;
  block_timestamp : uint256;
  block_prevrandao : uint256
}.

(** Reverts.  The [require] failures carry the name the specification gives
    them; the comment shows the revert string of the contract.  [Panic] is
    the compiler-inserted check (0x11 arithmetic, 0x12 division by zero,
    0x32 array index). *)
Inductive Error :=
| Unauthorized            (* "Only admin can call this function" *)
| AlreadyRegistered       (* "You have already entered the raffle" *)
| PoolExhausted           (* "All numbers have been assigned" *)
| NoEligibleParticipants  (* "No eligible participants left" *)
| IndexOutOfBounds        (* "Index out of bounds" *)
| NoWinnersYet            (* "No winners yet" *)
| Panic (code : N).

Inductive Result (A : Type) :=
| Ok (a : A)
| Revert (e : Error).
Arguments Ok {A} a.
Arguments Revert {A} e.

(** A revert aborts the rest of the call: [x ← r; k] is sequencing. *)
#[global] Instance Result_bind : MBind Result := λ A B k r,
  match r with
  | Ok a => k a
  | Revert e => Revert e
  end.

#[global] Instance Result_ret : MRet Result := λ A a, Ok a.

(** ** Storage and memory access *)

Definition zeroParticipant : Participant :=
  {| name := ""; number := 0; exists_ := false |}.

(** [participants[a]]: a mapping read never fails. *)
Definition participants_at (s : State) (a : address) : Participant :=
  default zeroParticipant (participants s !! a).

(** [numberAssigned[i]] *)
Definition numberAssigned_at (s : State) (i : uint256) : bool :=
  default false (numberAssigned s !! i).

(** [m[k] = b] on a mapping to [bool]: a slot holding the zero value is the
    same as a slot never written. *)
Definition store_flag (m : gmap uint256 bool) (k : uint256) (b : bool)
  : gmap uint256 bool :=
  if b then <[k := true]> m else delete k m.

(** [a - b] on [uint256], checked. *)
Definition checked_sub (a b : uint256) : Result uint256 :=
  if b <=? a then Ok (a - b) else Revert (Panic 0x11).

(** [a % b] on [uint256], checked. *)
Definition checked_mod (a b : uint256) : Result uint256 :=
  if b =? 0 then Revert (Panic 0x12) else Ok (a mod b).

(** [arr[idx] = v] on a memory array. *)
Definition array_store (arr : list uint256) (idx v : uint256)
  : Result (list uint256) :=
  if idx <? N.of_nat (length arr)
  then Ok (<[N.to_nat idx := v]> arr)
  else Revert (Panic 0x32).

(** [arr[idx]] on a memory array. *)
Definition array_load (arr : list uint256) (idx : uint256) : Result uint256 :=
  match arr !! N.to_nat idx with
  | Some v => Ok v
  | None => Revert (Panic 0x32)
  end.

(** The values taken by [i] in [for (i = 1; i <= MAX_NUMBER; i++)]. *)
Definition numbers_1_to_MAX : list uint256 :=
  N.of_nat <$> seq 1 (N.to_nat MAX_NUMBER).

(** ** The contract *)

Definition constructor (deployer : address) : State :=
  {| admin := deployer;
     participants := ∅;
     assignedNumbers := [];
     participantAddresses := [];
     winnerAddresses := [];
     winners := [];
     numberAssigned := ∅ |}.

(** The linear scan of [winnerAddresses] found in [isWinner] and, as the
    [isCurrentWinner] loop, twice in [drawWinner]. *)
Fixpoint scanWinners (ws : list address) (_participant : address) : bool :=
  match ws with
  | [] => false
  | w :: ws' => if w =? _participant then true else scanWinners ws' _participant
  end.

(** First loop of [drawWinner]: count the participants that are not
    winners.  The counter is bounded by the array length, itself a
    [uint256], so its checked increment never traps. *)
Fixpoint countEligible (ps ws : list address) (eligibleCount : uint256)
  : uint256 :=
  match ps with
  | [] => eligibleCount
  | participantAddress :: ps' =>
      let isCurrentWinner := scanWinners ws participantAddress in
      if negb isCurrentWinner
      then countEligible ps' ws (eligibleCount + 1)
      else countEligible ps' ws eligibleCount
  end.

(** Second loop of [drawWinner].  [Some a] is the [break] with
    [winnerAddress = a]; [None] is the loop running to its end without
    assigning [winnerAddress]. *)
Fixpoint locateWinner (ps ws : list address) (randomIndex currentIndex : uint256)
  : option address :=
  match ps with
  | [] => None
  | participantAddress :: ps' =>
      let isCurrentWinner := scanWinners ws participantAddress in
      if negb isCurrentWinner
      then if currentIndex =? randomIndex
           then Some participantAddress
           else locateWinner ps' ws randomIndex (currentIndex + 1)
      else locateWinner ps' ws randomIndex currentIndex
  end.

(** The populate loop of [_generateUniqueRandomNumber]. *)
Fixpoint populate (s : State) (range : list uint256)
    (availableNumbers : list uint256) (count : uint256)
  : Result (list uint256 * uint256) :=
  match range with
  | [] => Ok (availableNumbers, count)
  | i :: range' =>
      if negb (numberAssigned_at s i)
      then availableNumbers' ← array_store availableNumbers count i;
           populate s range' availableNumbers' (count + 1)
      else populate s range' availableNumbers count
  end.

Section Contract.

(** [uint256(keccak256(abi.encodePacked(v1, ..., vn)))], as a function of
    the packed values. *)
Variable keccak256 : list uint256 → uint256.

Definition _generateUniqueRandomNumber (env : Env) (s : State)
  : Result uint256 :=
  size ← checked_sub MAX_NUMBER (N.of_nat (length (assignedNumbers s)));
  filled ← populate s numbers_1_to_MAX (replicate (N.to_nat size) 0) 0;
  let availableNumbers := filled.1 in
  randomIndex ← checked_mod
    (keccak256 [block_timestamp env; block_prevrandao env; msg_sender env;
                N.of_nat (length (assignedNumbers s))])
    (N.of_nat (length availableNumbers));
  array_load availableNumbers randomIndex.

Definition enterRaffle (env : Env) (_name : string) (s : State)
  : Result (State * list Event) :=
  if exists_ (participants_at s (msg_sender env))
  then Revert AlreadyRegistered
  else if negb (N.of_nat (length (assignedNumbers s)) <? MAX_NUMBER)
  then Revert PoolExhausted
  else
    randomNumber ← _generateUniqueRandomNumber env s;
    Ok ({| admin := admin s;
           participants :=
             <[msg_sender env :=
                 {| name := _name; number := randomNumber; exists_ := true |}]>
             (participants s);
           assignedNumbers := assignedNumbers s ++ [randomNumber];
           participantAddresses := participantAddresses s ++ [msg_sender env];
           winnerAddresses := winnerAddresses s;
           winners := winners s;
           numberAssigned := store_flag (numberAssigned s) randomNumber true |},
        [ParticipantEntered (msg_sender env) _name randomNumber]).

Definition drawWinner (env : Env) (s : State)
  : Result (State * WinnerInfo * list Event) :=
  if negb (msg_sender env =? admin s)
  then Revert Unauthorized
  else
    let eligibleCount :=
      countEligible (participantAddresses s) (winnerAddresses s) 0 in
    if negb (0 <? eligibleCount)
    then Revert NoEligibleParticipants
    else
      randomIndex ← checked_mod
        (keccak256 [block_timestamp env; block_prevrandao env; msg_sender env])
        eligibleCount;
      let winnerAddress :=
        default 0 (locateWinner (participantAddresses s) (winnerAddresses s)
                                randomIndex 0) in
      let winner := participants_at s winnerAddress in
      let winnerInfo :=
        {| winnerAddress := winnerAddress;
           winnerName := name winner;
           winnerNumber := number winner |} in
      Ok ({| admin := admin s;
             participants := participants s;
             assignedNumbers := assignedNumbers s;
             participantAddresses := participantAddresses s;
             winnerAddresses := winnerAddresses s ++ [winnerAddress];
             winners := winners s ++ [winnerInfo];
             numberAssigned := numberAssigned s |},
          winnerInfo,
          [WinnerDrawn winnerAddress (name winner) (number winner)]).

Definition resetLottery (env : Env) (s : State)
  : Result (State * list Event) :=
  if negb (msg_sender env =? admin s)
  then Revert Unauthorized
  else
    Ok ({| admin := admin s;
           participants :=
             foldl (λ m a, delete a m) (participants s)
                   (participantAddresses s);
           assignedNumbers := [];
           participantAddresses := [];
           winnerAddresses := [];
           winners := [];
           numberAssigned :=
             foldl (λ m i, store_flag m i false) (numberAssigned s)
                   numbers_1_to_MAX |},
        [LotteryReset (block_timestamp env)]).

(** *** Views *)

Definition getAllWinners (s : State) : list WinnerInfo := winners s.

Definition getWinnerCount (s : State) : uint256 :=
  N.of_nat (length (winners s)).

Definition getWinnerByIndex (_index : uint256) (s : State)
  : Result WinnerInfo :=
  if negb (_index <? N.of_nat (length (winners s)))
  then Revert IndexOutOfBounds
  else match winners s !! N.to_nat _index with
       | Some w => Ok w
       | None => Revert (Panic 0x32)
       end.

Definition getLatestWinner (s : State) : Result WinnerInfo :=
  if negb (0 <? N.of_nat (length (winners s)))
  then Revert NoWinnersYet
  else match winners s !! N.to_nat (N.of_nat (length (winners s)) - 1) with
       | Some w => Ok w
       | None => Revert (Panic 0x32)
       end.

Definition getParticipantCount (s : State) : uint256 :=
  N.of_nat (length (participantAddresses s)).

Definition getParticipantInfo (_participant : address) (s : State)
  : string * uint256 * bool :=
  let participant := participants_at s _participant in
  (name participant, number participant, exists_ participant).

Definition isWinner (_participant : address) (s : State) : bool :=
  scanWinners (winnerAddresses s) _participant.

(** ** Transactions *)

Inductive Call :=
| EnterRaffle (_name : string)
| DrawWinner
| ResetLottery.

(** One transaction: the storage after the call, which is the storage
    before it when the call reverts. *)
Definition exec (env : Env) (c : Call) (s : State) : State :=
  match c with
  | EnterRaffle _name =>
      match enterRaffle env _name s with
      | Ok (s', _) => s'
      | Revert _ => s
      end
  | DrawWinner =>
      match drawWinner env s with
      | Ok (s', _, _) => s'
      | Revert _ => s
      end
  | ResetLottery =>
      match resetLottery env s with
      | Ok (s', _) => s'
      | Revert _ => s
      end
  end.

(** The states the contract can be in: deployed by anyone, then any
    sequence of transactions from any senders. *)
Inductive reachable : State → Prop :=
| reachable_deploy (deployer : address) :
    reachable (constructor deployer)
| reachable_exec (env : Env) (c : Call) (s : State) :
    reachable s → reachable (exec env c s).

Definition run (deployer : address) (txs : list (Env * Call)) : State :=
  foldl (λ s tx, exec tx.1 tx.2 s) (constructor deployer) txs.

End Contract.

(** ** Notions of the specification *)

(** The number pool: the numbers of [1, MAX_NUMBER] not marked as assigned,
    in increasing order. *)
Definition numberPool (s : State) : list uint256 :=
  filter (λ i, numberAssigned_at s i = false) numbers_1_to_MAX.

(** The eligible participants: those whose identity is not in the winner
    sequence, in registration order. *)
Definition eligibleOf (ps ws : list address) : list address :=
  filter (λ p, p ∉ ws) ps.

Definition eligible (s : State) : list address :=
  eligibleOf (participantAddresses s) (winnerAddresses s).

(** The record a draw produces for an identity. *)
Definition winnerRecord (s : State) (a : address) : WinnerInfo :=
  {| winnerAddress := a;
     winnerName := name (participants_at s a);
     winnerNumber := number (participants_at s a) |}.

(** The storage after a registration of [a] under the name [n] that was
    given the number [r]. *)
Definition registered (s : State) (a : address) (n : string) (r : uint256)
  : State :=
  {| admin := admin s;
     participants := <[a := {| name := n; number := r; exists_ := true |}]>
                     (participants s);
     assignedNumbers := assignedNumbers s ++ [r];
     participantAddresses := participantAddresses s ++ [a];
     winnerAddresses := winnerAddresses s;
     winners := winners s;
     numberAssigned := <[r := true]> (numberAssigned s) |}.

(** The storage after a draw that selected [a]. *)
Definition drawn (s : State) (a : address) : State :=
  {| admin := admin s;
     participants := participants s;
     assignedNumbers := assignedNumbers s;
     participantAddresses := participantAddresses s;
     winnerAddresses := winnerAddresses s ++ [a];
     winners := winners s ++ [winnerRecord s a];
     numberAssigned := numberAssigned s |}.

(** The storage invariant of the contract. *)
Record Inv (s : State) : Prop := mkInv {
  inv_numbers_nodup : NoDup (assignedNumbers s);
  inv_numbers_range : ∀ n, n ∈ assignedNumbers s → 1 ≤ n ≤ MAX_NUMBER;
  inv_marks : ∀ i, numberAssigned s !! i =
                   if decide (i ∈ assignedNumbers s) then Some true else None;
  inv_addresses_nodup : NoDup (participantAddresses s);
  inv_records : ∀ a, a ∈ participantAddresses s ↔ is_Some (participants s !! a);
  inv_exists : ∀ a p, participants s !! a = Some p → exists_ p = true;
  inv_numbers : assignedNumbers s =
                (λ a, number (participants_at s a)) <$> participantAddresses s;
  inv_winner_addresses : winnerAddresses s = winnerAddress <$> winners s;
  inv_winners_nodup : NoDup (winnerAddresses s);
  inv_winners_registered : ∀ a, a ∈ winnerAddresses s → a ∈ participantAddresses s
}.

(** ** Sample executions *)

Definition sample_hash (packed : list uint256) : uint256 :=
  foldr N.add 7 packed.

Definition sample_env (sender : address) : Env :=
  {| msg_sender := sender; block_timestamp := 5; block_prevrandao := 9 |}.

(** Deployed by 1; 10, 11 and 12 register. *)
Definition sample_registered : State :=
  run sample_hash 1
    [(sample_env 10, EnterRaffle "a"); (sample_env 11, EnterRaffle "b");
     (sample_env 12, EnterRaffle "c")].

(** The same, followed by one draw. *)
Definition sample_drawn : State :=
  exec sample_hash (sample_env 1) DrawWinner sample_registered.

(** Deployed by 1; 10 registers and wins. *)
Definition sample_all_won : State :=
  run sample_hash 1
    [(sample_env 10, EnterRaffle "a"); (sample_env 1, DrawWinner)].

(** Deployed by 1; the identities 1 to 100 register. *)
Definition sample_full : State :=
  run sample_hash 1
    ((λ i, (sample_env (N.of_nat i), EnterRaffle "x")) <$> seq 1 100).

(** ** The loops *)

Ltac result_simpl := cbn [mbind Result_bind mret Result_ret fst snd].

Lemma scanWinners_spec ws p : scanWinners ws p = bool_decide (p ∈ ws).
Proof.
  induction ws as [|w ws IH]; cbn [scanWinners].
  - by rewrite bool_decide_eq_false_2 by apply not_elem_of_nil.
  - destruct (N.eqb_spec w p) as [->|Hne].
    + rewrite bool_decide_eq_true_2; [done | left].
    + rewrite IH. apply bool_decide_ext. rewrite elem_of_cons.
      split; [by right | by intros [?|?]].
Qed.

Lemma eligibleOf_cons p ps ws :
  eligibleOf (p :: ps) ws =
  if scanWinners ws p then eligibleOf ps ws else p :: eligibleOf ps ws.
Proof.
  unfold eligibleOf. rewrite filter_cons, scanWinners_spec.
  destruct (decide (p ∉ ws)) as [H|H].
  - by rewrite bool_decide_eq_false_2.
  - rewrite bool_decide_eq_true_2; [done|]. by apply dec_stable.
Qed.

Lemma countEligible_spec ps ws c :
  countEligible ps ws c = c + N.of_nat (length (eligibleOf ps ws)).
Proof.
  revert c. induction ps as [|p ps IH]; intros c; simpl.
  - lia.
  - rewrite eligibleOf_cons. destruct (scanWinners ws p); simpl.
    + apply IH.
    + rewrite IH. lia.
Qed.

Lemma locateWinner_spec ps ws r c :
  c ≤ r →
  locateWinner ps ws r c = eligibleOf ps ws !! N.to_nat (r - c).
Proof.
  revert c. induction ps as [|p ps IH]; intros c Hc; simpl.
  - done.
  - rewrite eligibleOf_cons. destruct (scanWinners ws p); simpl.
    + by apply IH.
    + destruct (N.eqb_spec c r) as [->|Hne].
      * by rewrite N.sub_diag.
      * rewrite IH by lia.
        replace (N.to_nat (r - c)) with (S (N.to_nat (r - (c + 1)))) by lia.
        done.
Qed.

Lemma populate_spec s range pre k :
  let free := filter (λ i, numberAssigned_at s i = false) range in
  (length free ≤ k)%nat →
  populate s range (pre ++ replicate k 0) (N.of_nat (length pre)) =
  Ok (pre ++ free ++ replicate (k - length free)%nat 0,
      N.of_nat (length pre + length free)%nat).
Proof.
  revert pre k. induction range as [|i range IH]; intros pre k free Hk;
    subst free; simpl.
  - by rewrite Nat.sub_0_r, Nat.add_0_r.
  - rewrite filter_cons in *.
    destruct (decide (numberAssigned_at s i = false)) as [Hi|Hi].
    + rewrite Hi. simpl in *. destruct k as [|k]; [lia|].
      unfold array_store. rewrite length_app, length_replicate.
      destruct (N.ltb_spec (N.of_nat (length pre))
                  (N.of_nat (length pre + S k))) as [_|?]; [|lia].
      simpl. rewrite Nat2N.id.
      replace (<[length pre:=i]> (pre ++ replicate (S k) 0))
        with ((pre ++ [i]) ++ replicate k 0).
      2:{ rewrite insert_app_r_alt by lia. rewrite Nat.sub_diag. simpl.
          by rewrite <- app_assoc. }
      replace (N.of_nat (length pre) + 1) with (N.of_nat (length (pre ++ [i])))
        by (rewrite length_app; simpl; lia).
      rewrite IH by lia. rewrite length_app. simpl.
      rewrite <- app_assoc. simpl. do 3 f_equal. lia.
    + apply not_false_is_true in Hi. rewrite Hi. simpl. by apply IH.
Qed.

(** ** The number pool *)

Lemma elem_of_numbers_1_to_MAX i : i ∈ numbers_1_to_MAX ↔ 1 ≤ i ≤ MAX_NUMBER.
Proof.
  unfold numbers_1_to_MAX, MAX_NUMBER. rewrite list_elem_of_fmap. split.
  - intros (n & -> & Hn%elem_of_seq). lia.
  - intros Hi. exists (N.to_nat i). rewrite elem_of_seq. lia.
Qed.

Lemma NoDup_numbers_1_to_MAX : NoDup numbers_1_to_MAX.
Proof. apply NoDup_fmap_2; [apply _ | apply NoDup_seq]. Qed.

Lemma length_numbers_1_to_MAX : length numbers_1_to_MAX = N.to_nat MAX_NUMBER.
Proof. unfold numbers_1_to_MAX. by rewrite length_fmap, length_seq. Qed.

Lemma numberAssigned_at_spec s i :
  Inv s → numberAssigned_at s i = bool_decide (i ∈ assignedNumbers s).
Proof.
  intros HI. unfold numberAssigned_at. rewrite (inv_marks s HI).
  by case_decide; [rewrite bool_decide_eq_true_2|rewrite bool_decide_eq_false_2].
Qed.

Lemma elem_of_numberPool s i :
  Inv s → i ∈ numberPool s ↔ 1 ≤ i ≤ MAX_NUMBER ∧ i ∉ assignedNumbers s.
Proof.
  intros HI. unfold numberPool.
  rewrite list_elem_of_filter, elem_of_numbers_1_to_MAX, numberAssigned_at_spec by done.
  rewrite bool_decide_eq_false. tauto.
Qed.

Lemma length_numberPool s :
  Inv s →
  (length (numberPool s) + length (assignedNumbers s) = N.to_nat MAX_NUMBER)%nat.
Proof.
  intros HI. rewrite <- length_numbers_1_to_MAX.
  rewrite <- (Permutation_length
                (filter_app_complement (λ i, numberAssigned_at s i = false)
                   numbers_1_to_MAX)).
  rewrite length_app. unfold numberPool. f_equal.
  apply Permutation_length. symmetry. apply NoDup_Permutation.
  - apply NoDup_filter, NoDup_numbers_1_to_MAX.
  - apply (inv_numbers_nodup s HI).
  - intros i.
    rewrite list_elem_of_filter, elem_of_numbers_1_to_MAX,
      numberAssigned_at_spec, bool_decide_eq_false by done.
    split; [intros [Hi _]; by apply dec_stable|].
    intros Hi. split; [tauto | by apply (inv_numbers_range s HI)].
Qed.

Lemma mod_lookup_is_Some {A} (l : list A) (h : N) :
  l ≠ [] → is_Some (l !! N.to_nat (h mod N.of_nat (length l))).
Proof.
  intros Hl. apply lookup_lt_is_Some.
  assert (length l ≠ 0%nat) by (by destruct l).
  pose proof (N.mod_upper_bound h (N.of_nat (length l))). lia.
Qed.

Section GenerateFacts.
Variable keccak256 : list uint256 → uint256.

(** Under the invariant and with room left, the allocation returns the
    pool entry at the hashed index. *)
Lemma _generateUniqueRandomNumber_spec env s :
  Inv s →
  N.of_nat (length (assignedNumbers s)) < MAX_NUMBER →
  ∃ r,
    _generateUniqueRandomNumber keccak256 env s = Ok r ∧
    numberPool s !!
      N.to_nat (keccak256 [block_timestamp env; block_prevrandao env;
                           msg_sender env; N.of_nat (length (assignedNumbers s))]
                mod N.of_nat (length (numberPool s))) = Some r.
Proof.
  intros HI Hroom. pose proof (length_numberPool s HI) as Hlen.
  unfold _generateUniqueRandomNumber, checked_sub.
  destruct (N.leb_spec (N.of_nat (length (assignedNumbers s))) MAX_NUMBER)
    as [_|?]; [|lia].
  result_simpl.
  pose proof (populate_spec s numbers_1_to_MAX []
                (N.to_nat (MAX_NUMBER - N.of_nat (length (assignedNumbers s)))))
    as Hpop.
  cbn zeta in Hpop. fold (numberPool s) in Hpop.
  rewrite app_nil_l in Hpop. change (N.of_nat (length [])) with 0 in Hpop.
  rewrite Hpop by lia. clear Hpop. cbn [fst].
  replace (N.to_nat (MAX_NUMBER - N.of_nat (length (assignedNumbers s)))
           - length (numberPool s))%nat with 0%nat by lia.
  cbn [replicate]. rewrite !app_nil_r. result_simpl. cbn [app].
  assert (numberPool s ≠ []) as Hne.
  { intros Heq. rewrite Heq in Hlen. simpl in Hlen. lia. }
  unfold checked_mod.
  destruct (N.eqb_spec (N.of_nat (length (numberPool s))) 0) as [Hz|_].
  { destruct (numberPool s); [done | simpl in Hz; lia]. }
  result_simpl.
  destruct (mod_lookup_is_Some (numberPool s)
    (keccak256 [block_timestamp env; block_prevrandao env; msg_sender env;
                N.of_nat (length (assignedNumbers s))]) Hne) as [r Hr].
  exists r. split; [|done]. unfold array_load. by rewrite Hr.
Qed.

End GenerateFacts.

(** ** Reset *)

Lemma lookup_foldl_delete {V} (m : gmap N V) (l : list N) (k : N) :
  foldl (λ m a, delete a m) m l !! k = if decide (k ∈ l) then None else m !! k.
Proof.
  revert m. induction l as [|a l IH]; intros m; cbn [foldl].
  - by rewrite decide_False by apply not_elem_of_nil.
  - rewrite IH. destruct (decide (k ∈ l)) as [Hin|Hnin].
    + rewrite decide_True; [done | by right].
    + destruct (decide (a = k)) as [->|Hne].
      * rewrite lookup_delete_eq. rewrite decide_True; [done | left].
      * rewrite lookup_delete_ne by done.
        rewrite decide_False; [done|]. rewrite elem_of_cons.
        intros [?|?]; [congruence | done].
Qed.

Lemma resetLottery_spec env s :
  Inv s →
  msg_sender env = admin s →
  resetLottery env s =
  Ok (constructor (admin s), [LotteryReset (block_timestamp env)]).
Proof.
  intros HI Hadmin. unfold resetLottery. rewrite Hadmin, N.eqb_refl.
  cbn [negb]. unfold constructor. do 3 f_equal.
  - apply map_eq. intros a. rewrite lookup_foldl_delete, lookup_empty.
    case_decide as Ha; [done|]. apply eq_None_not_Some.
    by rewrite <- (inv_records s HI).
  - apply map_eq. intros i. unfold store_flag.
    rewrite lookup_foldl_delete, lookup_empty.
    case_decide as Hi; [done|]. rewrite (inv_marks s HI).
    case_decide as Hin; [|done]. destruct Hi.
    by apply elem_of_numbers_1_to_MAX, (inv_numbers_range s HI).
Qed.

Lemma resetLottery_unauthorized env s :
  msg_sender env ≠ admin s → resetLottery env s = Revert Unauthorized.
Proof.
  intros Hne. unfold resetLottery.
  by destruct (N.eqb_spec (msg_sender env) (admin s)).
Qed.

(** ** Draw *)

Section DrawFacts.
Variable keccak256 : list uint256 → uint256.

Lemma drawWinner_unauthorized env s :
  msg_sender env ≠ admin s → drawWinner keccak256 env s = Revert Unauthorized.
Proof.
  intros Hne. unfold drawWinner.
  by destruct (N.eqb_spec (msg_sender env) (admin s)).
Qed.

Lemma drawWinner_none_eligible env s :
  msg_sender env = admin s →
  eligible s = [] →
  drawWinner keccak256 env s = Revert NoEligibleParticipants.
Proof.
  intros Hadmin Hnil. unfold drawWinner. rewrite Hadmin, N.eqb_refl.
  cbn [negb]. rewrite countEligible_spec. fold (eligible s). by rewrite Hnil.
Qed.

Lemma drawWinner_some_eligible env s :
  msg_sender env = admin s →
  eligible s ≠ [] →
  ∃ a,
    eligible s !!
      N.to_nat (keccak256 [block_timestamp env; block_prevrandao env;
                           msg_sender env]
                mod N.of_nat (length (eligible s))) = Some a ∧
    locateWinner (participantAddresses s) (winnerAddresses s)
      (keccak256 [block_timestamp env; block_prevrandao env; msg_sender env]
       mod countEligible (participantAddresses s) (winnerAddresses s) 0) 0
    = Some a ∧
    drawWinner keccak256 env s =
    Ok (drawn s a, winnerRecord s a,
        [WinnerDrawn a (name (participants_at s a))
                       (number (participants_at s a))]).
Proof.
  intros Hadmin Hne.
  destruct (mod_lookup_is_Some (eligible s)
    (keccak256 [block_timestamp env; block_prevrandao env; msg_sender env]) Hne)
    as [a Ha].
  assert (length (eligible s) ≠ 0%nat) as Hlen by (by destruct (eligible s)).
  assert (locateWinner (participantAddresses s) (winnerAddresses s)
      (keccak256 [block_timestamp env; block_prevrandao env; msg_sender env]
       mod countEligible (participantAddresses s) (winnerAddresses s) 0) 0
    = Some a) as Hloc.
  { rewrite locateWinner_spec by apply N.le_0_l. rewrite countEligible_spec.
    fold (eligible s). by rewrite N.add_0_l, N.sub_0_r. }
  exists a. split; [done|]. split; [done|].
  unfold drawWinner. rewrite Hadmin, N.eqb_refl. cbn [negb].
  rewrite Hadmin in Hloc.
  destruct (N.ltb_spec 0
    (countEligible (participantAddresses s) (winnerAddresses s) 0)) as [Hpos|Hz].
  2:{ rewrite countEligible_spec in Hz. fold (eligible s) in Hz. lia. }
  cbn [negb]. unfold checked_mod.
  destruct (N.eqb_spec
    (countEligible (participantAddresses s) (winnerAddresses s) 0) 0); [lia|].
  result_simpl. by rewrite Hloc.
Qed.

Lemma drawWinner_inv env s s' w ev :
  drawWinner keccak256 env s = Ok (s', w, ev) →
  msg_sender env = admin s ∧
  ∃ a,
    eligible s !!
      N.to_nat (keccak256 [block_timestamp env; block_prevrandao env;
                           msg_sender env]
                mod N.of_nat (length (eligible s))) = Some a ∧
    s' = drawn s a ∧ w = winnerRecord s a.
Proof.
  intros Hok. destruct (decide (msg_sender env = admin s)) as [Hadmin|Hne].
  2:{ by rewrite drawWinner_unauthorized in Hok. }
  split; [done|]. destruct (decide (eligible s = [])) as [Hnil|Hsome].
  { by rewrite drawWinner_none_eligible in Hok. }
  destruct (drawWinner_some_eligible env s Hadmin Hsome) as (a & Ha & _ & Heq).
  rewrite Heq in Hok. exists a. by simplify_eq.
Qed.

End DrawFacts.

(** ** Registration *)

Lemma participants_at_exists s a :
  Inv s → exists_ (participants_at s a) = bool_decide (is_Some (participants s !! a)).
Proof.
  intros HI. unfold participants_at.
  destruct (participants s !! a) as [p|] eqn:Hp; cbn [from_option id].
  - rewrite (inv_exists s HI a p Hp). by rewrite bool_decide_eq_true_2.
  - rewrite bool_decide_eq_false_2; [done|]. by intros [? ?].
Qed.

Section EnterFacts.
Variable keccak256 : list uint256 → uint256.

Lemma enterRaffle_already env _name s :
  exists_ (participants_at s (msg_sender env)) = true →
  enterRaffle keccak256 env _name s = Revert AlreadyRegistered.
Proof. intros He. unfold enterRaffle. by rewrite He. Qed.

Lemma enterRaffle_exhausted env _name s :
  exists_ (participants_at s (msg_sender env)) = false →
  MAX_NUMBER ≤ N.of_nat (length (assignedNumbers s)) →
  enterRaffle keccak256 env _name s = Revert PoolExhausted.
Proof.
  intros He Hfull. unfold enterRaffle. rewrite He.
  by destruct (N.ltb_spec (N.of_nat (length (assignedNumbers s))) MAX_NUMBER);
    [lia|].
Qed.

Lemma enterRaffle_success env _name s :
  Inv s →
  exists_ (participants_at s (msg_sender env)) = false →
  N.of_nat (length (assignedNumbers s)) < MAX_NUMBER →
  ∃ r,
    numberPool s !!
      N.to_nat (keccak256 [block_timestamp env; block_prevrandao env;
                           msg_sender env; N.of_nat (length (assignedNumbers s))]
                mod N.of_nat (length (numberPool s))) = Some r ∧
    enterRaffle keccak256 env _name s =
    Ok (registered s (msg_sender env) _name r,
        [ParticipantEntered (msg_sender env) _name r]).
Proof.
  intros HI He Hroom.
  destruct (_generateUniqueRandomNumber_spec keccak256 env s HI Hroom)
    as (r & Hgen & Hr).
  exists r. split; [done|]. unfold enterRaffle. rewrite He.
  destruct (N.ltb_spec (N.of_nat (length (assignedNumbers s))) MAX_NUMBER);
    [|lia].
  cbn [negb]. rewrite Hgen. by result_simpl.
Qed.

Lemma enterRaffle_inv env _name s s' ev :
  Inv s →
  enterRaffle keccak256 env _name s = Ok (s', ev) →
  participants s !! msg_sender env = None ∧
  ∃ r, r ∈ numberPool s ∧ s' = registered s (msg_sender env) _name r.
Proof.
  intros HI Hok.
  destruct (exists_ (participants_at s (msg_sender env))) eqn:He.
  { by rewrite enterRaffle_already in Hok. }
  destruct (N.lt_ge_cases (N.of_nat (length (assignedNumbers s))) MAX_NUMBER)
    as [Hroom|Hfull].
  2:{ by rewrite enterRaffle_exhausted in Hok. }
  destruct (enterRaffle_success env _name s HI He Hroom) as (r & Hr & Heq).
  rewrite Heq in Hok. split.
  - rewrite participants_at_exists in He by done.
    apply bool_decide_eq_false in He. by apply eq_None_not_Some.
  - exists r. split; [by eapply list_elem_of_lookup_2 | by simplify_eq].
Qed.

End EnterFacts.

(** ** The invariant holds in every reachable state *)

Lemma Inv_constructor deployer : Inv (constructor deployer).
Proof.
  split; cbn [constructor assignedNumbers participantAddresses winnerAddresses
              winners participants numberAssigned];
    try done; try apply NoDup_nil_2.
  - intros n Hn. by apply not_elem_of_nil in Hn.
  - intros a. rewrite lookup_empty. split.
    + intros Ha. by apply not_elem_of_nil in Ha.
    + by intros [? ?].
Qed.

Lemma Inv_registered s a n r :
  Inv s →
  participants s !! a = None →
  r ∈ numberPool s →
  Inv (registered s a n r).
Proof.
  intros HI Hnone Hr.
  apply (elem_of_numberPool s r HI) in Hr as [Hrange Hfresh].
  assert (a ∉ participantAddresses s) as Hnew.
  { rewrite (inv_records s HI). rewrite Hnone. by intros [? ?]. }
  split; cbn [registered assignedNumbers participantAddresses winnerAddresses
              winners participants numberAssigned].
  - apply NoDup_app. split; [apply (inv_numbers_nodup s HI)|]. split.
    + intros x Hx ->%list_elem_of_singleton. done.
    + apply NoDup_singleton.
  - intros x [Hx| ->%list_elem_of_singleton]%elem_of_app; [|done].
    by apply (inv_numbers_range s HI).
  - intros i. rewrite lookup_insert. destruct (decide (r = i)) as [->|Hne].
    + rewrite decide_True; [done|]. apply elem_of_app. right. left.
    + rewrite (inv_marks s HI). apply decide_ext.
      rewrite elem_of_app, list_elem_of_singleton. intuition congruence.
  - apply NoDup_app. split; [apply (inv_addresses_nodup s HI)|]. split.
    + intros x Hx ->%list_elem_of_singleton. done.
    + apply NoDup_singleton.
  - intros x. rewrite elem_of_app, list_elem_of_singleton, lookup_insert_is_Some.
    rewrite (inv_records s HI).
    destruct (decide (a = x)); intuition congruence.
  - intros x p. rewrite lookup_insert_Some. intros [[_ <-]|[_ Hp]]; [done|].
    by apply (inv_exists s HI x).
  - rewrite fmap_app. cbn [fmap list_fmap]. f_equal.
    + rewrite (inv_numbers s HI) at 1. apply list_fmap_ext. intros i x Hx.
      unfold participants_at. cbn [participants registered].
      rewrite lookup_insert_ne; [done|]. intros <-.
      apply Hnew. by eapply list_elem_of_lookup_2.
    + unfold participants_at. cbn [participants registered].
      by rewrite lookup_insert_eq.
  - apply (inv_winner_addresses s HI).
  - apply (inv_winners_nodup s HI).
  - intros x Hx. apply elem_of_app. left.
    by apply (inv_winners_registered s HI).
Qed.

Lemma Inv_drawn s a :
  Inv s →
  a ∈ eligible s →
  Inv (drawn s a).
Proof.
  intros HI [Hfresh Hreg]%list_elem_of_filter.
  split; cbn [drawn assignedNumbers participantAddresses winnerAddresses
              winners participants numberAssigned];
    try apply HI.
  - rewrite fmap_app. cbn [fmap list_fmap winnerRecord winnerAddress].
    f_equal. apply (inv_winner_addresses s HI).
  - apply NoDup_app. split; [apply (inv_winners_nodup s HI)|]. split.
    + intros x Hx ->%list_elem_of_singleton. done.
    + apply NoDup_singleton.
  - intros x [Hx| ->%list_elem_of_singleton]%elem_of_app; [|done].
    by apply (inv_winners_registered s HI).
Qed.

Section Reachability.
Variable keccak256 : list uint256 → uint256.

Lemma Inv_exec env c s : Inv s → Inv (exec keccak256 env c s).
Proof.
  intros HI. destruct c as [_name| |]; cbn [exec].
  - destruct (enterRaffle keccak256 env _name s) as [[s' ev]|e] eqn:Hcall;
      [|done].
    apply enterRaffle_inv in Hcall as (Hnone & r & Hr & ->); [|done].
    by apply Inv_registered.
  - destruct (drawWinner keccak256 env s) as [[[s' w] ev]|e] eqn:Hcall;
      [|done].
    apply drawWinner_inv in Hcall as (_ & a & Ha & -> & _).
    apply Inv_drawn; [done|]. by eapply list_elem_of_lookup_2.
  - destruct (decide (msg_sender env = admin s)) as [Hadmin|Hne].
    + rewrite resetLottery_spec by done. apply Inv_constructor.
    + by rewrite resetLottery_unauthorized.
Qed.

Lemma reachable_Inv s : reachable keccak256 s → Inv s.
Proof.
  induction 1 as [deployer|env c s _ IH].
  - apply Inv_constructor.
  - by apply Inv_exec.
Qed.

Lemma reachable_run deployer txs : reachable keccak256 (run keccak256 deployer txs).
Proof.
  unfold run. induction txs as [|tx txs IH] using rev_ind; cbn [foldl].
  - apply reachable_deploy.
  - rewrite foldl_app. cbn [foldl]. by apply reachable_exec.
Qed.

End Reachability.

(** ** Properties of the specification *)

Lemma size_participants s :
  Inv s → size (participants s) = length (participantAddresses s).
Proof.
  intros HI.
  assert (dom (participants s) = list_to_set (participantAddresses s)) as Hdom.
  { apply set_eq. intros a. rewrite elem_of_dom, elem_of_list_to_set.
    symmetry. apply (inv_records s HI). }
  rewrite <- size_dom, Hdom. apply size_list_to_set, (inv_addresses_nodup s HI).
Qed.

Lemma NoDup_fmap_eq {A B} (f : A → B) (l : list A) (x y : A) :
  NoDup (f <$> l) → x ∈ l → y ∈ l → f x = f y → x = y.
Proof.
  intros Hnd [i Hi]%list_elem_of_lookup [j Hj]%list_elem_of_lookup Hxy.
  assert (i = j) as ->.
  { eapply NoDup_lookup; [exact Hnd| |].
    - rewrite list_lookup_fmap, Hi. reflexivity.
    - rewrite list_lookup_fmap, Hj. cbn. by rewrite Hxy. }
  congruence.
Qed.

(** C1: after every sequence of transactions from deployment, the assigned
    numbers are pairwise distinct (as a list, and across the participant
    records), lie in [1, 100], are the numbers held by the participant
    records, and are as many as the participant records and as 100 minus the
    size of the number pool. *)
Theorem C1_numbers_unique_in_range_and_counted
    (keccak256 : list uint256 → uint256) (deployer : address)
    (txs : list (Env * Call)) :
  let s := run keccak256 deployer txs in
  NoDup (assignedNumbers s) ∧
  (∀ a b pa pb,
     participants s !! a = Some pa → participants s !! b = Some pb →
     number pa = number pb → a = b) ∧
  (∀ n, n ∈ assignedNumbers s → 1 ≤ n ≤ 100) ∧
  assignedNumbers s =
    (λ a, number (participants_at s a)) <$> participantAddresses s ∧
  length (assignedNumbers s) = size (participants s) ∧
  length (assignedNumbers s) = length (participantAddresses s) ∧
  (length (numberPool s) ≤ 100)%nat ∧
  length (assignedNumbers s) = (100 - length (numberPool s))%nat.
Proof.
  intros s. pose proof (reachable_Inv keccak256 s (reachable_run _ _ _)) as HI.
  pose proof (length_numberPool s HI) as Hpool.
  change (N.to_nat MAX_NUMBER) with 100%nat in Hpool.
  assert (length (assignedNumbers s) = length (participantAddresses s)) as Hlen.
  { rewrite (inv_numbers s HI) at 1. apply length_fmap. }
  split; [apply (inv_numbers_nodup s HI)|].
  split.
  { intros a b pa pb Ha Hb Heq.
    apply (NoDup_fmap_eq (λ a, number (participants_at s a))
             (participantAddresses s)).
    - rewrite <- (inv_numbers s HI). apply (inv_numbers_nodup s HI).
    - apply (inv_records s HI). by rewrite Ha.
    - apply (inv_records s HI). by rewrite Hb.
    - unfold participants_at. by rewrite Ha, Hb. }
  split; [apply (inv_numbers_range s HI)|].
  split; [apply (inv_numbers s HI)|].
  split; [by rewrite size_participants|].
  split; [done|]. lia.
Qed.

Lemma eligible_nil_iff s :
  eligible s = [] ↔
  ∀ a, a ∈ participantAddresses s → a ∈ winnerAddresses s.
Proof.
  unfold eligible, eligibleOf. split.
  - intros Hnil a Ha. apply dec_stable. intros Hna.
    by apply (filter_nil_not_elem_of _ _ a Hnil Hna).
  - intros Hall.
    destruct (filter (λ p, p ∉ winnerAddresses s) (participantAddresses s))
      as [|a l] eqn:Hf; [done|].
    assert (a ∈ filter (λ p, p ∉ winnerAddresses s) (participantAddresses s))
      as [Hna Ha]%list_elem_of_filter by (rewrite Hf; left).
    destruct Hna. by apply Hall.
Qed.

(** C2, as stated, fails: with every participant a winner, a draw called
    by an identity other than the admin reverts with [Unauthorized]. *)
Lemma C2_draw_by_stranger_counterexample :
  reachable sample_hash sample_all_won ∧
  participantAddresses sample_all_won = [10] ∧
  winnerAddress <$> winners sample_all_won = [10] ∧
  admin sample_all_won = 1 ∧
  drawWinner sample_hash (sample_env 2) sample_all_won = Revert Unauthorized ∧
  drawWinner sample_hash (sample_env 2) sample_all_won
  ≠ Revert NoEligibleParticipants.
Proof.
  split; [apply reachable_run|]. by vm_compute.
Qed.

(** C2, amended: in every reachable state the identities of the winner
    sequence are pairwise distinct; a successful draw selects an identity
    that is not yet in the winner sequence; and once every participant has
    won, a draw called by the admin reverts with [NoEligibleParticipants]
    (called by anyone else, with [Unauthorized]). *)
Theorem C2_winners_never_repeat (keccak256 : list uint256 → uint256) s :
  reachable keccak256 s →
  NoDup (winnerAddress <$> winners s) ∧
  (∀ env s' w ev,
     drawWinner keccak256 env s = Ok (s', w, ev) →
     winnerAddress w ∉ winnerAddress <$> winners s) ∧
  (∀ env,
     (∀ a, a ∈ participantAddresses s → a ∈ winnerAddress <$> winners s) →
     drawWinner keccak256 env s =
     Revert (if msg_sender env =? admin s
             then NoEligibleParticipants else Unauthorized)).
Proof.
  intros Hreach. pose proof (reachable_Inv keccak256 s Hreach) as HI.
  rewrite <- (inv_winner_addresses s HI).
  split; [apply (inv_winners_nodup s HI)|]. split.
  - intros env s' w ev (_ & a & Ha & _ & ->)%drawWinner_inv.
    apply list_elem_of_lookup_2, list_elem_of_filter in Ha as [Hfresh _].
    done.
  - intros env Hall. destruct (N.eqb_spec (msg_sender env) (admin s)).
    + apply drawWinner_none_eligible; [done|]. by apply eligible_nil_iff.
    + by apply drawWinner_unauthorized.
Qed.

Lemma C2_winners_never_repeat_witness :
  NoDup (winnerAddress <$> winners sample_all_won) ∧
  (∀ env s' w ev,
     drawWinner sample_hash env sample_all_won = Ok (s', w, ev) →
     winnerAddress w ∉ winnerAddress <$> winners sample_all_won) ∧
  (∀ env,
     (∀ a, a ∈ participantAddresses sample_all_won →
           a ∈ winnerAddress <$> winners sample_all_won) →
     drawWinner sample_hash env sample_all_won =
     Revert (if msg_sender env =? admin sample_all_won
             then NoEligibleParticipants else Unauthorized)).
Proof.
  apply (C2_winners_never_repeat sample_hash sample_all_won).
  apply reachable_run.
Defined.

(** C3: called by the admin with at least one eligible participant,
    [drawWinner] takes the hash modulo the eligible count as index N,
    which is below the eligible count, selects the N-th entry (from 0) of
    the participants not in the winner sequence taken in registration
    order, appends its (identity, name, number) to the winner sequence and
    returns it; called by the admin with no eligible participant, it reverts
    with [NoEligibleParticipants]. *)
Theorem C3_draw_selects_nth_eligible
    (keccak256 : list uint256 → uint256) env s :
  msg_sender env = admin s →
  let eligibleCount :=
    countEligible (participantAddresses s) (winnerAddresses s) 0 in
  let randomIndex :=
    keccak256 [block_timestamp env; block_prevrandao env; msg_sender env]
    mod eligibleCount in
  eligibleCount =
    N.of_nat (length (filter (λ p, p ∉ winnerAddresses s)
                             (participantAddresses s))) ∧
  (0 < eligibleCount →
   randomIndex < eligibleCount ∧
   ∃ a s',
     filter (λ p, p ∉ winnerAddresses s) (participantAddresses s)
       !! N.to_nat randomIndex = Some a ∧
     let w := {| winnerAddress := a;
                 winnerName := name (participants_at s a);
                 winnerNumber := number (participants_at s a) |} in
     drawWinner keccak256 env s =
       Ok (s', w, [WinnerDrawn a (winnerName w) (winnerNumber w)]) ∧
     winners s' = winners s ++ [w] ∧
     winnerAddresses s' = winnerAddresses s ++ [a]) ∧
  (eligibleCount = 0 →
   drawWinner keccak256 env s = Revert NoEligibleParticipants).
Proof.
  intros Hadmin eligibleCount randomIndex.
  assert (eligibleCount = N.of_nat (length (eligible s))) as Hcount.
  { subst eligibleCount. by rewrite countEligible_spec. }
  split; [done|]. split.
  - intros Hpos. split; [apply N.mod_upper_bound; lia|].
    assert (eligible s ≠ []) as Hsome.
    { intros Hnil. rewrite Hnil in Hcount. simpl in Hcount. lia. }
    destruct (drawWinner_some_eligible keccak256 env s Hadmin Hsome)
      as (a & Ha & _ & Heq).
    exists a, (drawn s a). subst randomIndex. rewrite Hcount.
    split; [exact Ha|]. cbn zeta. by rewrite Heq.
  - intros Hzero. apply drawWinner_none_eligible; [done|].
    destruct (eligible s); [done|]. simpl in Hcount. lia.
Qed.

Lemma C3_draw_selects_nth_eligible_witness :
  drawWinner sample_hash (sample_env 1) sample_registered =
    Ok (sample_drawn,
        {| winnerAddress := 11; winnerName := "b"; winnerNumber := 35 |},
        [WinnerDrawn 11 "b" 35]) ∧
  drawWinner sample_hash (sample_env 1) sample_all_won =
    Revert NoEligibleParticipants.
Proof.
  split.
  - destruct (C3_draw_selects_nth_eligible sample_hash (sample_env 1)
                sample_registered) as (_ & Hdraw & _); [by vm_compute|].
    destruct Hdraw as (_ & a & s' & Ha & Hcall & _); [by vm_compute|].
    vm_compute in Ha. injection Ha as <-.
    unfold sample_drawn, exec. rewrite Hcall. reflexivity.
  - apply (C3_draw_selects_nth_eligible sample_hash (sample_env 1)
             sample_all_won); by vm_compute.
Defined.

(** C4, as stated, fails: with all 100 numbers assigned, a registration by
    an identity that already has a record reverts with [AlreadyRegistered],
    not with [PoolExhausted]. *)
Lemma C4_full_pool_registered_caller_counterexample :
  reachable sample_hash sample_full ∧
  length (assignedNumbers sample_full) = 100%nat ∧
  numberPool sample_full = [] ∧
  participants sample_full !! 1 =
    Some {| name := "x"; number := 23; exists_ := true |} ∧
  enterRaffle sample_hash (sample_env 1) "again" sample_full
  = Revert AlreadyRegistered ∧
  enterRaffle sample_hash (sample_env 1) "again" sample_full
  ≠ Revert PoolExhausted.
Proof.
  split; [apply reachable_run|].
  split; [by vm_compute|]. split; [by vm_compute|].
  split; [by vm_compute|]. by vm_compute.
Qed.

(** C4, amended: in every reachable state, [enterRaffle] reverts with
    [AlreadyRegistered] whenever the caller already has a participant
    record; it reverts with [PoolExhausted] whenever all 100 numbers are
    assigned (the pool is empty, which is the case exactly when 100
    participants are registered) and the caller has no participant record;
    in both cases the storage is unchanged. *)
Theorem C4_enter_failures
    (keccak256 : list uint256 → uint256) env _name s :
  reachable keccak256 s →
  (is_Some (participants s !! msg_sender env) →
   enterRaffle keccak256 env _name s = Revert AlreadyRegistered ∧
   exec keccak256 env (EnterRaffle _name) s = s) ∧
  (numberPool s = [] ↔ length (participantAddresses s) = 100%nat) ∧
  (numberPool s = [] →
   participants s !! msg_sender env = None →
   enterRaffle keccak256 env _name s = Revert PoolExhausted ∧
   exec keccak256 env (EnterRaffle _name) s = s).
Proof.
  intros Hreach. pose proof (reachable_Inv keccak256 s Hreach) as HI.
  pose proof (length_numberPool s HI) as Hpool.
  change (N.to_nat MAX_NUMBER) with 100%nat in Hpool.
  assert (length (assignedNumbers s) = length (participantAddresses s)) as Hlen.
  { rewrite (inv_numbers s HI) at 1. apply length_fmap. }
  split; [|split].
  - intros Hrec.
    assert (enterRaffle keccak256 env _name s = Revert AlreadyRegistered) as Heq.
    { apply enterRaffle_already. rewrite participants_at_exists by done.
      by apply bool_decide_eq_true. }
    split; [done|]. cbn [exec]. by rewrite Heq.
  - split.
    + intros Hnil. rewrite Hnil in Hpool. simpl in Hpool. lia.
    + intros Hfull. destruct (numberPool s); [done | simpl in Hpool; lia].
  - intros Hnil Hnone.
    assert (enterRaffle keccak256 env _name s = Revert PoolExhausted) as Heq.
    { apply enterRaffle_exhausted.
      - rewrite participants_at_exists by done. apply bool_decide_eq_false.
        rewrite Hnone. by intros [? ?].
      - rewrite Hnil in Hpool. simpl in Hpool. unfold MAX_NUMBER. lia. }
    split; [done|]. cbn [exec]. by rewrite Heq.
Qed.

Lemma C4_enter_failures_witness :
  (enterRaffle sample_hash (sample_env 1) "y" sample_full
   = Revert AlreadyRegistered ∧
   exec sample_hash (sample_env 1) (EnterRaffle "y") sample_full = sample_full) ∧
  (enterRaffle sample_hash (sample_env 200) "y" sample_full
   = Revert PoolExhausted ∧
   exec sample_hash (sample_env 200) (EnterRaffle "y") sample_full
   = sample_full).
Proof.
  split.
  - apply (C4_enter_failures sample_hash (sample_env 1) "y" sample_full).
    + apply reachable_run.
    + vm_compute. by eexists.
  - apply (C4_enter_failures sample_hash (sample_env 200) "y" sample_full).
    + apply reachable_run.
    + by vm_compute.
    + by vm_compute.
Defined.

Lemma numberPool_constructor deployer :
  numberPool (constructor deployer) = numbers_1_to_MAX.
Proof. reflexivity. Qed.

(** C5: in every reachable state, [resetLottery] called by the admin
    succeeds and leaves no participant record, an empty participant list,
    an empty winner sequence, no number marked as assigned, the whole range
    [1, 100] in the number pool, and the admin it had. *)
Theorem C5_reset_clears_all_but_admin
    (keccak256 : list uint256 → uint256) env s :
  reachable keccak256 s →
  msg_sender env = admin s →
  ∃ s',
    resetLottery env s = Ok (s', [LotteryReset (block_timestamp env)]) ∧
    participants s' = ∅ ∧
    participantAddresses s' = [] ∧
    winnerAddresses s' = [] ∧
    winners s' = [] ∧
    assignedNumbers s' = [] ∧
    (∀ i, numberAssigned_at s' i = false) ∧
    numberPool s' = numbers_1_to_MAX ∧
    (∀ i, i ∈ numberPool s' ↔ 1 ≤ i ≤ 100) ∧
    admin s' = admin s.
Proof.
  intros Hreach Hadmin. pose proof (reachable_Inv keccak256 s Hreach) as HI.
  exists (constructor (admin s)).
  split; [by apply resetLottery_spec|].
  rewrite numberPool_constructor. repeat split; try done.
  - by intros ?%elem_of_numbers_1_to_MAX.
  - by intros ?%elem_of_numbers_1_to_MAX.
  - by intros ?%elem_of_numbers_1_to_MAX.
Qed.

Lemma C5_reset_clears_all_but_admin_witness :
  ∃ s',
    resetLottery (sample_env 1) sample_drawn = Ok (s', [LotteryReset 5]) ∧
    participants s' = ∅ ∧
    participantAddresses s' = [] ∧
    winnerAddresses s' = [] ∧
    winners s' = [] ∧
    assignedNumbers s' = [] ∧
    (∀ i, numberAssigned_at s' i = false) ∧
    numberPool s' = numbers_1_to_MAX ∧
    (∀ i, i ∈ numberPool s' ↔ 1 ≤ i ≤ 100) ∧
    admin s' = admin sample_drawn.
Proof.
  apply (C5_reset_clears_all_but_admin sample_hash (sample_env 1) sample_drawn).
  - apply reachable_exec, reachable_run.
  - by vm_compute.
Defined.

Section AdminFacts.
Variable keccak256 : list uint256 → uint256.

Lemma admin_exec env c s : admin (exec keccak256 env c s) = admin s.
Proof.
  destruct c as [_name| |]; cbn [exec].
  - unfold enterRaffle.
    destruct (exists_ (participants_at s (msg_sender env))); [done|].
    destruct (negb _); [done|].
    by destruct (_generateUniqueRandomNumber keccak256 env s).
  - unfold drawWinner.
    destruct (negb (msg_sender env =? admin s)); [done|].
    destruct (negb _); [done|].
    by destruct (checked_mod _ _).
  - unfold resetLottery. by destruct (negb _).
Qed.

Lemma admin_resets envs s :
  admin (foldl (λ s env, exec keccak256 env ResetLottery s) s envs) = admin s.
Proof.
  revert s. induction envs as [|env envs IH]; intros s; cbn [foldl]; [done|].
  by rewrite IH, admin_exec.
Qed.

End AdminFacts.

(** C6: in every reachable state, a reset by the admin followed by a second
    reset by the admin leaves exactly the storage the first reset left, and
    the admin is the same after any number of reset calls. *)
Theorem C6_reset_idempotent
    (keccak256 : list uint256 → uint256) env1 env2 s :
  reachable keccak256 s →
  msg_sender env1 = admin s →
  msg_sender env2 = admin s →
  (∃ s1,
     resetLottery env1 s = Ok (s1, [LotteryReset (block_timestamp env1)]) ∧
     resetLottery env2 s1 = Ok (s1, [LotteryReset (block_timestamp env2)])) ∧
  exec keccak256 env2 ResetLottery (exec keccak256 env1 ResetLottery s)
  = exec keccak256 env1 ResetLottery s ∧
  ∀ envs,
    admin (foldl (λ s env, exec keccak256 env ResetLottery s) s envs) = admin s.
Proof.
  intros Hreach Hadmin1 Hadmin2.
  pose proof (reachable_Inv keccak256 s Hreach) as HI.
  assert (resetLottery env2 (constructor (admin s))
          = Ok (constructor (admin s), [LotteryReset (block_timestamp env2)]))
    as Hsecond.
  { by rewrite resetLottery_spec by (apply Inv_constructor || done). }
  split; [|split].
  - exists (constructor (admin s)). split; [by apply resetLottery_spec | done].
  - cbn [exec]. rewrite (resetLottery_spec env1 s HI Hadmin1).
    by rewrite Hsecond.
  - intros envs. apply admin_resets.
Qed.

Lemma C6_reset_idempotent_witness :
  (∃ s1,
     resetLottery (sample_env 1) sample_drawn = Ok (s1, [LotteryReset 5]) ∧
     resetLottery (mkEnv 1 6 4) s1 = Ok (s1, [LotteryReset 6])) ∧
  exec sample_hash (mkEnv 1 6 4) ResetLottery
    (exec sample_hash (sample_env 1) ResetLottery sample_drawn)
  = exec sample_hash (sample_env 1) ResetLottery sample_drawn ∧
  ∀ envs,
    admin (foldl (λ s env, exec sample_hash env ResetLottery s)
                 sample_drawn envs)
    = admin sample_drawn.
Proof.
  apply (C6_reset_idempotent sample_hash (sample_env 1) (mkEnv 1 6 4)
           sample_drawn).
  - apply reachable_exec, reachable_run.
  - by vm_compute.
  - by vm_compute.
Defined.

(** C7: called by an identity that is not the admin, [drawWinner] and
    [resetLottery] revert with [Unauthorized], and the storage after the
    transaction is the storage before it; this holds in every state, hence
    in every reachable one. *)
Theorem C7_stranger_unauthorized
    (keccak256 : list uint256 → uint256) env s :
  msg_sender env ≠ admin s →
  drawWinner keccak256 env s = Revert Unauthorized ∧
  resetLottery env s = Revert Unauthorized ∧
  exec keccak256 env DrawWinner s = s ∧
  exec keccak256 env ResetLottery s = s.
Proof.
  intros Hne. cbn [exec].
  rewrite drawWinner_unauthorized, resetLottery_unauthorized by done.
  done.
Qed.

Lemma C7_stranger_unauthorized_witness :
  drawWinner sample_hash (sample_env 10) sample_registered
  = Revert Unauthorized ∧
  resetLottery (sample_env 10) sample_registered = Revert Unauthorized ∧
  exec sample_hash (sample_env 10) DrawWinner sample_registered
  = sample_registered ∧
  exec sample_hash (sample_env 10) ResetLottery sample_registered
  = sample_registered.
Proof.
  apply (C7_stranger_unauthorized sample_hash (sample_env 10) sample_registered).
  by vm_compute.
Defined.

(** C8: a successful [drawWinner] appends exactly the returned record to
    the winner sequence (and its identity to the winner addresses), and
    leaves the participant records, the participant list, the assigned
    numbers, their markers, the number pool and the admin as they were. *)
Theorem C8_draw_only_grows_winners
    (keccak256 : list uint256 → uint256) env s s' w ev :
  drawWinner keccak256 env s = Ok (s', w, ev) →
  winners s' = winners s ++ [w] ∧
  length (winners s') = S (length (winners s)) ∧
  winnerAddresses s' = winnerAddresses s ++ [winnerAddress w] ∧
  participants s' = participants s ∧
  participantAddresses s' = participantAddresses s ∧
  assignedNumbers s' = assignedNumbers s ∧
  numberAssigned s' = numberAssigned s ∧
  numberPool s' = numberPool s ∧
  admin s' = admin s.
Proof.
  intros (_ & a & _ & -> & ->)%drawWinner_inv.
  cbn [drawn winners winnerAddresses participants participantAddresses
       assignedNumbers numberAssigned admin winnerRecord winnerAddress].
  rewrite length_app. cbn [length]. repeat split; try done. lia.
Qed.

Lemma C8_draw_only_grows_winners_witness :
  let w := {| winnerAddress := 11; winnerName := "b"; winnerNumber := 35 |} in
  winners sample_drawn = winners sample_registered ++ [w] ∧
  length (winners sample_drawn) = S (length (winners sample_registered)) ∧
  winnerAddresses sample_drawn = winnerAddresses sample_registered ++ [11] ∧
  participants sample_drawn = participants sample_registered ∧
  participantAddresses sample_drawn = participantAddresses sample_registered ∧
  assignedNumbers sample_drawn = assignedNumbers sample_registered ∧
  numberAssigned sample_drawn = numberAssigned sample_registered ∧
  numberPool sample_drawn = numberPool sample_registered ∧
  admin sample_drawn = admin sample_registered.
Proof.
  apply (C8_draw_only_grows_winners sample_hash (sample_env 1)
           sample_registered sample_drawn
           {| winnerAddress := 11; winnerName := "b"; winnerNumber := 35 |}
           [WinnerDrawn 11 "b" 35]).
  by vm_compute.
Defined.

(** C9: in every reachable state, [getParticipantInfo] (a total function:
    it cannot revert) returns the empty name, the number 0 and [false] for
    an identity without a participant record, and the stored name, the
    assigned number and [true] for a registered identity; the registered
    identities are those of the participant list. *)
Theorem C9_getParticipantInfo
    (keccak256 : list uint256 → uint256) s (a : address) :
  reachable keccak256 s →
  (participants s !! a = None →
   getParticipantInfo a s = ("", 0, false)) ∧
  (∀ p, participants s !! a = Some p →
        getParticipantInfo a s = (name p, number p, true) ∧
        number p ∈ assignedNumbers s) ∧
  (a ∈ participantAddresses s ↔ is_Some (participants s !! a)).
Proof.
  intros Hreach. pose proof (reachable_Inv keccak256 s Hreach) as HI.
  unfold getParticipantInfo, participants_at. split; [|split].
  - by intros ->.
  - intros p Hp. rewrite Hp. cbn [from_option id].
    rewrite (inv_exists s HI a p Hp). split; [done|].
    rewrite (inv_numbers s HI). apply list_elem_of_fmap. exists a. split.
    + unfold participants_at. by rewrite Hp.
    + apply (inv_records s HI). by rewrite Hp.
  - apply (inv_records s HI).
Qed.

Lemma C9_getParticipantInfo_witness :
  getParticipantInfo 99 sample_registered = ("", 0, false) ∧
  getParticipantInfo 11 sample_registered = ("b", 35, true).
Proof.
  split.
  - apply (C9_getParticipantInfo sample_hash sample_registered 99).
    + apply reachable_run.
    + by vm_compute.
  - destruct (C9_getParticipantInfo sample_hash sample_registered 11
                (reachable_run _ _ _)) as (_ & Hstored & _).
    apply (Hstored {| name := "b"; number := 35; exists_ := true |}).
    by vm_compute.
Defined.

(** C10: in every reachable state in which [drawWinner] counts a positive
    number of eligible participants, the index that [drawWinner] computes,
    the checked modulo of the hash by the eligible count, is below the
    eligible count (as is the checked modulo of any value), and the locate
    loop run at that index ends at its [break] with a participant that is
    not yet a winner and has a participant record whose [exists] flag is
    set.  So the call made by the admin succeeds with that participant as
    winner: the loop never runs to its end leaving [winnerAddress] at the
    zero address by default. *)
Theorem C10_locate_always_selects
    (keccak256 : list uint256 → uint256) env s :
  reachable keccak256 s →
  let eligibleCount :=
    countEligible (participantAddresses s) (winnerAddresses s) 0 in
  0 < eligibleCount →
  (∀ hash, ∃ index,
     checked_mod hash eligibleCount = Ok index ∧
     index < eligibleCount ∧
     locateWinner (participantAddresses s) (winnerAddresses s) index 0
     ≠ None) ∧
  ∃ randomIndex a s' w ev,
    checked_mod
      (keccak256 [block_timestamp env; block_prevrandao env; msg_sender env])
      eligibleCount = Ok randomIndex ∧
    randomIndex < eligibleCount ∧
    locateWinner (participantAddresses s) (winnerAddresses s) randomIndex 0
    = Some a ∧
    a ∈ participantAddresses s ∧
    (a ∉ winnerAddresses s) ∧
    is_Some (participants s !! a) ∧
    exists_ (participants_at s a) = true ∧
    winnerAddress w = a ∧
    winnerAddresses s' = winnerAddresses s ++ [a] ∧
    (msg_sender env = admin s →
     drawWinner keccak256 env s = Ok (s', w, ev)) ∧
    (∀ s1 w1 ev1,
       drawWinner keccak256 env s = Ok (s1, w1, ev1) →
       locateWinner (participantAddresses s) (winnerAddresses s) randomIndex 0
       = Some (winnerAddress w1)).
Proof.
  intros Hreach eligibleCount Hpos.
  pose proof (reachable_Inv keccak256 s Hreach) as HI.
  assert (eligibleCount = N.of_nat (length (eligible s))) as Hcount.
  { subst eligibleCount. by rewrite countEligible_spec. }
  assert (∀ hash, checked_mod hash eligibleCount = Ok (hash mod eligibleCount))
    as Hmod.
  { intros hash. unfold checked_mod.
    destruct (N.eqb_spec eligibleCount 0); [lia | done]. }
  assert (∀ hash, hash mod eligibleCount < eligibleCount) as Hlt
    by (intros hash; apply N.mod_upper_bound; lia).
  assert (∀ hash, ∃ a,
            locateWinner (participantAddresses s) (winnerAddresses s)
              (hash mod eligibleCount) 0 = Some a ∧
            a ∈ eligible s) as Hloc.
  { intros hash. rewrite locateWinner_spec by apply N.le_0_l.
    rewrite N.sub_0_r. fold (eligible s).
    destruct (eligible s !! N.to_nat (hash mod eligibleCount)) as [a|] eqn:Ha.
    - exists a. split; [done | by eapply list_elem_of_lookup_2].
    - apply lookup_ge_None in Ha. specialize (Hlt hash). lia. }
  split.
  { intros hash. exists (hash mod eligibleCount).
    destruct (Hloc hash) as (a & -> & _). by rewrite Hmod. }
  destruct (Hloc (keccak256 [block_timestamp env; block_prevrandao env;
                             msg_sender env])) as (a & Ha & Hel).
  exists (keccak256 [block_timestamp env; block_prevrandao env; msg_sender env]
          mod eligibleCount), a, (drawn s a), (winnerRecord s a),
         [WinnerDrawn a (name (participants_at s a))
                        (number (participants_at s a))].
  apply list_elem_of_filter in Hel as [Hfresh Hreg].
  pose proof Hreg as Hrec. apply (inv_records s HI) in Hrec.
  assert (eligible s ≠ []) as Hsome.
  { intros Hnil. rewrite Hnil in Hcount. simpl in Hcount. lia. }
  assert (msg_sender env = admin s →
          drawWinner keccak256 env s =
          Ok (drawn s a, winnerRecord s a,
              [WinnerDrawn a (name (participants_at s a))
                             (number (participants_at s a))])) as Hdraw.
  { intros Hadmin.
    destruct (drawWinner_some_eligible keccak256 env s Hadmin Hsome)
      as (a' & _ & Ha' & Heq).
    fold eligibleCount in Ha'. rewrite Ha in Ha'. by injection Ha' as <-. }
  split; [apply Hmod|]. split; [apply Hlt|]. split; [done|].
  split; [done|]. split; [done|]. split; [done|].
  split; [rewrite participants_at_exists by done; by apply bool_decide_eq_true|].
  split; [done|]. split; [done|]. split; [done|].
  intros s1 w1 ev1 Hok.
  destruct (decide (msg_sender env = admin s)) as [Hadmin|Hne].
  - rewrite (Hdraw Hadmin) in Hok. by injection Hok as <- <- <-.
  - by rewrite drawWinner_unauthorized in Hok.
Qed.

Lemma C10_locate_always_selects_witness :
  let eligibleCount :=
    countEligible (participantAddresses sample_registered)
                  (winnerAddresses sample_registered) 0 in
  (∀ hash, ∃ index,
     checked_mod hash eligibleCount = Ok index ∧
     index < eligibleCount ∧
     locateWinner (participantAddresses sample_registered)
       (winnerAddresses sample_registered) index 0 ≠ None) ∧
  ∃ randomIndex a s' w ev,
    checked_mod
      (sample_hash [block_timestamp (sample_env 1);
                    block_prevrandao (sample_env 1);
                    msg_sender (sample_env 1)])
      eligibleCount = Ok randomIndex ∧
    randomIndex < eligibleCount ∧
    locateWinner (participantAddresses sample_registered)
      (winnerAddresses sample_registered) randomIndex 0 = Some a ∧
    a ∈ participantAddresses sample_registered ∧
    (a ∉ winnerAddresses sample_registered) ∧
    is_Some (participants sample_registered !! a) ∧
    exists_ (participants_at sample_registered a) = true ∧
    winnerAddress w = a ∧
    winnerAddresses s' = winnerAddresses sample_registered ++ [a] ∧
    (msg_sender (sample_env 1) = admin sample_registered →
     drawWinner sample_hash (sample_env 1) sample_registered = Ok (s', w, ev)) ∧
    (∀ s1 w1 ev1,
       drawWinner sample_hash (sample_env 1) sample_registered
       = Ok (s1, w1, ev1) →
       locateWinner (participantAddresses sample_registered)
         (winnerAddresses sample_registered) randomIndex 0
       = Some (winnerAddress w1)).
Proof.
  apply (C10_locate_always_selects sample_hash (sample_env 1)
           sample_registered).
  - apply reachable_run.
  - vm_compute. reflexivity.
Defined.

(** ** Further properties of the contract *)

(** *** Registration *)

Lemma Inv_record_None s a :
  Inv s → participants s !! a = None ↔ a ∉ participantAddresses s.
Proof.
  intros HI. rewrite (inv_records s HI), eq_None_not_Some. done.
Qed.

Lemma Inv_counts s :
  Inv s → length (assignedNumbers s) = length (participantAddresses s).
Proof. intros HI. rewrite (inv_numbers s HI) at 1. apply length_fmap. Qed.

(** X1: in a reachable state, a registration by an identity without a
    record, with fewer than 100 participants, succeeds.  The number given
    is the entry of the number pool at the hash modulo the pool size; it
    lies in [1, 100] and was not assigned.  The call stores the record,
    marks and appends the number, appends the caller to the participant
    list, emits [ParticipantEntered], and leaves winners and admin alone. *)
Theorem X1_enterRaffle_assigns_pool_number
    (keccak256 : list uint256 → uint256) env _name s :
  reachable keccak256 s →
  participants s !! msg_sender env = None →
  (length (participantAddresses s) < 100)%nat →
  ∃ r s',
    enterRaffle keccak256 env _name s =
      Ok (s', [ParticipantEntered (msg_sender env) _name r]) ∧
    numberPool s !!
      N.to_nat (keccak256 [block_timestamp env; block_prevrandao env;
                           msg_sender env; N.of_nat (length (assignedNumbers s))]
                mod N.of_nat (length (numberPool s))) = Some r ∧
    1 ≤ r ≤ 100 ∧
    (r ∉ assignedNumbers s) ∧
    participants s' =
      <[msg_sender env := {| name := _name; number := r; exists_ := true |}]>
      (participants s) ∧
    assignedNumbers s' = assignedNumbers s ++ [r] ∧
    participantAddresses s' = participantAddresses s ++ [msg_sender env] ∧
    numberAssigned_at s r = false ∧
    numberAssigned_at s' r = true ∧
    winners s' = winners s ∧
    winnerAddresses s' = winnerAddresses s ∧
    admin s' = admin s.
Proof.
  intros Hreach Hnone Hroom.
  pose proof (reachable_Inv keccak256 s Hreach) as HI.
  pose proof (Inv_counts s HI) as Hcount.
  destruct (enterRaffle_success keccak256 env _name s HI) as (r & Hr & Heq).
  { rewrite participants_at_exists by done. apply bool_decide_eq_false.
    rewrite Hnone. by intros [? ?]. }
  { unfold MAX_NUMBER. lia. }
  exists r, (registered s (msg_sender env) _name r).
  pose proof (list_elem_of_lookup_2 _ _ _ Hr) as Hin.
  apply (elem_of_numberPool s r HI) in Hin as [Hrange Hfresh].
  split; [done|]. split; [done|]. split; [done|]. split; [done|].
  cbn [registered participants assignedNumbers participantAddresses winners
       winnerAddresses admin].
  repeat split; try done.
  - rewrite numberAssigned_at_spec by done. by apply bool_decide_eq_false.
  - unfold numberAssigned_at. cbn [registered numberAssigned].
    by rewrite lookup_insert_eq.
Qed.

Lemma X1_enterRaffle_assigns_pool_number_witness :
  ∃ r s',
    enterRaffle sample_hash (sample_env 13) "d" sample_registered =
      Ok (s', [ParticipantEntered (msg_sender (sample_env 13)) "d" r]) ∧
    numberPool sample_registered !!
      N.to_nat (sample_hash
                  [block_timestamp (sample_env 13);
                   block_prevrandao (sample_env 13);
                   msg_sender (sample_env 13);
                   N.of_nat (length (assignedNumbers sample_registered))]
                mod N.of_nat (length (numberPool sample_registered))) = Some r ∧
    1 ≤ r ≤ 100 ∧
    (r ∉ assignedNumbers sample_registered) ∧
    participants s' =
      <[msg_sender (sample_env 13) :=
          {| name := "d"; number := r; exists_ := true |}]>
      (participants sample_registered) ∧
    assignedNumbers s' = assignedNumbers sample_registered ++ [r] ∧
    participantAddresses s' =
      participantAddresses sample_registered ++ [msg_sender (sample_env 13)] ∧
    numberAssigned_at sample_registered r = false ∧
    numberAssigned_at s' r = true ∧
    winners s' = winners sample_registered ∧
    winnerAddresses s' = winnerAddresses sample_registered ∧
    admin s' = admin sample_registered.
Proof.
  apply (X1_enterRaffle_assigns_pool_number sample_hash (sample_env 13) "d"
           sample_registered).
  - apply reachable_run.
  - by vm_compute.
  - vm_compute. lia.
Defined.

(** X2: in a reachable state a registration has exactly three outcomes.
    It succeeds when the caller has no record and fewer than 100
    participants are registered; it reverts with [AlreadyRegistered] when
    the caller has a record; it reverts with [PoolExhausted] when the
    caller has no record and 100 participants are registered.  It never
    reverts with a panic of the allocation code. *)
Theorem X2_enterRaffle_outcomes
    (keccak256 : list uint256 → uint256) env _name s :
  reachable keccak256 s →
  match enterRaffle keccak256 env _name s with
  | Ok _ =>
      participants s !! msg_sender env = None ∧
      (length (participantAddresses s) < 100)%nat
  | Revert e =>
      (e = AlreadyRegistered ∧ is_Some (participants s !! msg_sender env)) ∨
      (e = PoolExhausted ∧ participants s !! msg_sender env = None ∧
       length (participantAddresses s) = 100%nat)
  end.
Proof.
  intros Hreach. pose proof (reachable_Inv keccak256 s Hreach) as HI.
  pose proof (Inv_counts s HI) as Hcount.
  pose proof (length_numberPool s HI) as Hpool.
  change (N.to_nat MAX_NUMBER) with 100%nat in Hpool.
  pose proof (participants_at_exists s (msg_sender env) HI) as Hex.
  destruct (participants s !! msg_sender env) as [p|] eqn:Hp.
  - rewrite enterRaffle_already.
    + left. split; [done | by eexists].
    + rewrite Hex. apply bool_decide_eq_true. by eexists.
  - assert (exists_ (participants_at s (msg_sender env)) = false) as Hno.
    { rewrite Hex. apply bool_decide_eq_false. by intros [? ?]. }
    destruct (decide (length (participantAddresses s) < 100)%nat) as [Hlt|Hge].
    + destruct (enterRaffle_success keccak256 env _name s HI Hno)
        as (r & _ & ->); [unfold MAX_NUMBER; lia | done].
    + rewrite enterRaffle_exhausted; [|done|unfold MAX_NUMBER; lia].
      right. split; [done|]. split; [done|]. lia.
Qed.

Lemma X2_enterRaffle_outcomes_witness :
  participants sample_full !! msg_sender (sample_env 200) = None ∧
  length (participantAddresses sample_full) = 100%nat.
Proof.
  pose proof (X2_enterRaffle_outcomes sample_hash (sample_env 200) "y"
                sample_full (reachable_run _ _ _)) as Hout.
  assert (enterRaffle sample_hash (sample_env 200) "y" sample_full
          = Revert PoolExhausted) as Hcall by (by vm_compute).
  rewrite Hcall in Hout.
  destruct Hout as [[Hbad _]|(_ & Hnone & Hfull)]; [discriminate Hbad|].
  split; [exact Hnone | exact Hfull].
Defined.

(** X3: the modulo of [_generateUniqueRandomNumber] is by the number of
    unassigned numbers, so in a reachable state with all 100 numbers
    assigned the function reverts with the division-by-zero panic: the
    length check made by [enterRaffle] before the call is what keeps it
    from being reached. *)
Theorem X3_generate_on_empty_pool_panics
    (keccak256 : list uint256 → uint256) env s :
  reachable keccak256 s →
  length (participantAddresses s) = 100%nat →
  _generateUniqueRandomNumber keccak256 env s = Revert (Panic 0x12).
Proof.
  intros Hreach Hfull. pose proof (reachable_Inv keccak256 s Hreach) as HI.
  pose proof (Inv_counts s HI) as Hcount.
  pose proof (length_numberPool s HI) as Hpool.
  change (N.to_nat MAX_NUMBER) with 100%nat in Hpool.
  unfold _generateUniqueRandomNumber, checked_sub.
  destruct (N.leb_spec (N.of_nat (length (assignedNumbers s))) MAX_NUMBER)
    as [_|?]; [|unfold MAX_NUMBER in *; lia].
  result_simpl.
  replace (N.to_nat (MAX_NUMBER - N.of_nat (length (assignedNumbers s))))
    with 0%nat by (unfold MAX_NUMBER; lia).
  pose proof (populate_spec s numbers_1_to_MAX [] 0) as Hpop.
  cbn zeta in Hpop. fold (numberPool s) in Hpop.
  assert (numberPool s = []) as Hnil
    by (destruct (numberPool s); [done | simpl in Hpool; lia]).
  rewrite Hnil in Hpop. cbn [replicate app length Nat.sub] in Hpop.
  change (N.of_nat 0) with 0 in Hpop. cbn [replicate].
  rewrite Hpop by lia. by result_simpl.
Qed.

Lemma X3_generate_on_empty_pool_panics_witness :
  _generateUniqueRandomNumber sample_hash (sample_env 200) sample_full
  = Revert (Panic 0x12).
Proof.
  apply (X3_generate_on_empty_pool_panics sample_hash (sample_env 200)
           sample_full).
  - apply reachable_run.
  - by vm_compute.
Defined.

(** *** The winner log and its views *)

Lemma getWinnerByIndex_lookup _index s :
  getWinnerByIndex _index s =
  match winners s !! N.to_nat _index with
  | Some w => Ok w
  | None => Revert IndexOutOfBounds
  end.
Proof.
  unfold getWinnerByIndex.
  destruct (N.ltb_spec _index (N.of_nat (length (winners s)))) as [Hlt|Hge];
    cbn [negb].
  - destruct (winners s !! N.to_nat _index) eqn:Hw; [done|].
    apply lookup_ge_None in Hw. lia.
  - rewrite lookup_ge_None_2; [done | lia].
Qed.

Lemma getLatestWinner_last s :
  getLatestWinner s =
  match last (winners s) with
  | Some w => Ok w
  | None => Revert NoWinnersYet
  end.
Proof.
  unfold getLatestWinner. rewrite last_lookup.
  destruct (winners s) as [|w ws] eqn:Hw; [done|].
  destruct (N.ltb_spec 0 (N.of_nat (length (w :: ws)))) as [_|Hz];
    [|simpl in Hz; lia].
  cbn [negb].
  replace (N.to_nat (N.of_nat (length (w :: ws)) - 1))
    with (pred (length (w :: ws))) by lia.
  destruct ((w :: ws) !! pred (length (w :: ws))) as [x|] eqn:Hx; [done|].
  apply lookup_ge_None in Hx. simpl in Hx. lia.
Qed.

(** X4: [getWinnerByIndex] returns the entry of the winner log at the
    given 0-based index exactly when the index is below the winner count,
    and reverts with [IndexOutOfBounds] exactly when it is not; the array
    access behind the check never panics. *)
Theorem X4_getWinnerByIndex_bounds (_index : uint256) s :
  (∀ w, getWinnerByIndex _index s = Ok w ↔
        winners s !! N.to_nat _index = Some w) ∧
  (_index < getWinnerCount s → ∃ w, getWinnerByIndex _index s = Ok w) ∧
  (getWinnerByIndex _index s = Revert IndexOutOfBounds ↔
   getWinnerCount s ≤ _index) ∧
  (∀ code, getWinnerByIndex _index s ≠ Revert (Panic code)).
Proof.
  rewrite getWinnerByIndex_lookup. unfold getWinnerCount.
  destruct (winners s !! N.to_nat _index) as [w|] eqn:Hw.
  - apply lookup_lt_Some in Hw.
    split; [intros w'; split; congruence|].
    split; [by eexists|]. split; [|done]. split; [done | lia].
  - apply lookup_ge_None in Hw.
    split; [intros w'; split; congruence|].
    split; [lia|]. split; [|done]. split; [lia | done].
Qed.

(** X5: [getLatestWinner] reverts with [NoWinnersYet] exactly when the
    winner log is empty, and otherwise returns its last entry, which is
    what [getWinnerByIndex] returns at the winner count minus one. *)
Theorem X5_getLatestWinner_last s :
  (getLatestWinner s = Revert NoWinnersYet ↔ winners s = []) ∧
  (∀ w, getLatestWinner s = Ok w ↔ last (winners s) = Some w) ∧
  (winners s ≠ [] →
   getLatestWinner s = getWinnerByIndex (getWinnerCount s - 1) s).
Proof.
  rewrite getLatestWinner_last, getWinnerByIndex_lookup. unfold getWinnerCount.
  replace (N.to_nat (N.of_nat (length (winners s)) - 1))
    with (pred (length (winners s))) by lia.
  rewrite <- last_lookup.
  destruct (last (winners s)) as [w|] eqn:Hlast.
  - split; [|split].
    + split; [done|]. intros Hnil. by rewrite Hnil in Hlast.
    + intros w'. split; congruence.
    + done.
  - apply last_None in Hlast. split; [|split].
    + done.
    + intros w'. split; congruence.
    + done.
Qed.

(** X6: after a successful draw that returned [w], the winner count is one
    more, [w] is the latest winner and the winner at the index of the old
    count, every earlier index reads as before, and the participant count
    and every participant's info are as before. *)
Theorem X6_draw_then_views
    (keccak256 : list uint256 → uint256) env s s' w ev :
  drawWinner keccak256 env s = Ok (s', w, ev) →
  getWinnerCount s' = getWinnerCount s + 1 ∧
  getLatestWinner s' = Ok w ∧
  getWinnerByIndex (getWinnerCount s) s' = Ok w ∧
  (∀ i, i < getWinnerCount s → getWinnerByIndex i s' = getWinnerByIndex i s) ∧
  getAllWinners s' = getAllWinners s ++ [w] ∧
  getParticipantCount s' = getParticipantCount s ∧
  (∀ a, getParticipantInfo a s' = getParticipantInfo a s).
Proof.
  intros (_ & a & _ & -> & ->)%drawWinner_inv.
  rewrite getLatestWinner_last. unfold getWinnerCount, getAllWinners.
  cbn [drawn winners]. rewrite length_app, last_snoc. cbn [length].
  split; [lia|]. split; [done|]. split; [|split].
  - rewrite getWinnerByIndex_lookup. cbn [drawn winners].
    rewrite Nat2N.id. by rewrite list_lookup_middle.
  - intros i Hi. rewrite !getWinnerByIndex_lookup. cbn [drawn winners].
    rewrite lookup_app_l by lia. done.
  - done.
Qed.

Lemma X6_draw_then_views_witness :
  let w := {| winnerAddress := 11; winnerName := "b"; winnerNumber := 35 |} in
  getWinnerCount sample_drawn = getWinnerCount sample_registered + 1 ∧
  getLatestWinner sample_drawn = Ok w ∧
  getWinnerByIndex (getWinnerCount sample_registered) sample_drawn = Ok w ∧
  (∀ i, i < getWinnerCount sample_registered →
        getWinnerByIndex i sample_drawn = getWinnerByIndex i sample_registered) ∧
  getAllWinners sample_drawn = getAllWinners sample_registered ++ [w] ∧
  getParticipantCount sample_drawn = getParticipantCount sample_registered ∧
  (∀ a, getParticipantInfo a sample_drawn
        = getParticipantInfo a sample_registered).
Proof.
  apply (X6_draw_then_views sample_hash (sample_env 1) sample_registered
           sample_drawn
           {| winnerAddress := 11; winnerName := "b"; winnerNumber := 35 |}
           [WinnerDrawn 11 "b" 35]).
  by vm_compute.
Defined.

Lemma isWinner_elem_of a s : isWinner a s = bool_decide (a ∈ winnerAddresses s).
Proof. apply scanWinners_spec. Qed.

(** X7: a successful draw turns [isWinner] from false to true for the
    identity it returns, and changes it for no other identity. *)
Theorem X7_draw_then_isWinner
    (keccak256 : list uint256 → uint256) env s s' w ev :
  drawWinner keccak256 env s = Ok (s', w, ev) →
  isWinner (winnerAddress w) s = false ∧
  isWinner (winnerAddress w) s' = true ∧
  (∀ a, a ≠ winnerAddress w → isWinner a s' = isWinner a s).
Proof.
  intros (_ & a & Ha & -> & ->)%drawWinner_inv.
  apply list_elem_of_lookup_2, list_elem_of_filter in Ha as [Hfresh _].
  rewrite !isWinner_elem_of. cbn [drawn winnerAddresses winnerRecord winnerAddress].
  split; [by apply bool_decide_eq_false|].
  split.
  - apply bool_decide_eq_true, elem_of_app. right. left.
  - intros b Hb. rewrite !isWinner_elem_of. cbn [drawn winnerAddresses].
    apply bool_decide_ext. rewrite elem_of_app, list_elem_of_singleton.
    intuition congruence.
Qed.

Lemma X7_draw_then_isWinner_witness :
  isWinner 11 sample_registered = false ∧
  isWinner 11 sample_drawn = true ∧
  (∀ a, a ≠ 11 → isWinner a sample_drawn = isWinner a sample_registered).
Proof.
  apply (X7_draw_then_isWinner sample_hash (sample_env 1) sample_registered
           sample_drawn
           {| winnerAddress := 11; winnerName := "b"; winnerNumber := 35 |}
           [WinnerDrawn 11 "b" 35]).
  by vm_compute.
Defined.

(** *** Winners and participant records *)

Lemma winnerRecord_registered s a n r x :
  x ≠ a → winnerRecord (registered s a n r) x = winnerRecord s x.
Proof.
  intros Hne. unfold winnerRecord, participants_at.
  cbn [registered participants]. by rewrite lookup_insert_ne.
Qed.

Lemma winners_recorded (keccak256 : list uint256 → uint256) s :
  reachable keccak256 s →
  ∀ w, w ∈ winners s → w = winnerRecord s (winnerAddress w).
Proof.
  induction 1 as [deployer|env c s Hreach IH].
  - intros w Hw. by apply not_elem_of_nil in Hw.
  - pose proof (reachable_Inv keccak256 s Hreach) as HI.
    destruct c as [_name| |]; cbn [exec].
    + destruct (enterRaffle keccak256 env _name s) as [[s' ev]|e] eqn:Hcall;
        [|done].
      apply enterRaffle_inv in Hcall as (Hnone & r & _ & ->); [|done].
      intros w Hw. cbn [registered winners] in Hw.
      rewrite winnerRecord_registered; [by apply IH|].
      intros Heq. apply (Inv_record_None s _ HI) in Hnone. apply Hnone.
      apply (inv_winners_registered s HI). rewrite (inv_winner_addresses s HI).
      rewrite <- Heq. by apply list_elem_of_fmap_2.
    + destruct (drawWinner keccak256 env s) as [[[s' w0] ev]|e] eqn:Hcall;
        [|done].
      apply drawWinner_inv in Hcall as (_ & a & _ & -> & _).
      intros w [Hw| ->%list_elem_of_singleton]%elem_of_app.
      * by apply IH.
      * done.
    + destruct (decide (msg_sender env = admin s)) as [Hadmin|Hne].
      * rewrite resetLottery_spec by done.
        intros w Hw. by apply not_elem_of_nil in Hw.
      * by rewrite resetLottery_unauthorized.
Qed.

(** X8: in every reachable state, [isWinner] is true for an identity
    exactly when the winner log holds a record with that identity, and
    every such identity is a registered participant. *)
Theorem X8_isWinner_reads_the_log
    (keccak256 : list uint256 → uint256) s (a : address) :
  reachable keccak256 s →
  (isWinner a s = true ↔ ∃ w, w ∈ winners s ∧ winnerAddress w = a) ∧
  (isWinner a s = true →
   a ∈ participantAddresses s ∧ is_Some (participants s !! a)).
Proof.
  intros Hreach. pose proof (reachable_Inv keccak256 s Hreach) as HI.
  rewrite isWinner_elem_of, bool_decide_eq_true. split.
  - rewrite (inv_winner_addresses s HI), list_elem_of_fmap. split.
    + intros (w & -> & Hw). by exists w.
    + intros (w & Hw & <-). by exists w.
  - intros Ha%(inv_winners_registered s HI). split; [done|].
    by apply (inv_records s HI).
Qed.

Lemma X8_isWinner_reads_the_log_witness :
  (isWinner 11 sample_drawn = true ↔
   ∃ w, w ∈ winners sample_drawn ∧ winnerAddress w = 11) ∧
  (isWinner 11 sample_drawn = true →
   11 ∈ participantAddresses sample_drawn ∧
   is_Some (participants sample_drawn !! 11)).
Proof.
  apply (X8_isWinner_reads_the_log sample_hash sample_drawn 11).
  apply reachable_exec, reachable_run.
Defined.

(** X9: in every reachable state, every record of the winner log carries
    the name and the number that [getParticipantInfo] returns for its
    identity, that identity is registered, and the number is an assigned
    number in [1, 100]. *)
Theorem X9_winner_records_match_participants
    (keccak256 : list uint256 → uint256) s w :
  reachable keccak256 s →
  w ∈ winners s →
  getParticipantInfo (winnerAddress w) s = (winnerName w, winnerNumber w, true) ∧
  winnerAddress w ∈ participantAddresses s ∧
  winnerNumber w ∈ assignedNumbers s ∧
  1 ≤ winnerNumber w ≤ 100.
Proof.
  intros Hreach Hw. pose proof (reachable_Inv keccak256 s Hreach) as HI.
  pose proof (winners_recorded keccak256 s Hreach w Hw) as Hrec.
  assert (winnerAddress w ∈ participantAddresses s) as Hreg.
  { apply (inv_winners_registered s HI). rewrite (inv_winner_addresses s HI).
    by apply list_elem_of_fmap_2. }
  assert (winnerName w = name (participants_at s (winnerAddress w))) as Hname
    by (by rewrite Hrec at 1).
  assert (winnerNumber w = number (participants_at s (winnerAddress w)))
    as Hnumber by (by rewrite Hrec at 1).
  assert (winnerNumber w ∈ assignedNumbers s) as Hassigned.
  { rewrite Hnumber, (inv_numbers s HI).
    by apply (list_elem_of_fmap_2 (λ a, number (participants_at s a))). }
  split; [|split; [done|split; [done|]]].
  - unfold getParticipantInfo. rewrite <- Hname, <- Hnumber.
    rewrite participants_at_exists by done.
    rewrite bool_decide_eq_true_2; [done|]. by apply (inv_records s HI).
  - by apply (inv_numbers_range s HI).
Qed.

Lemma X9_winner_records_match_participants_witness :
  let w := {| winnerAddress := 11; winnerName := "b"; winnerNumber := 35 |} in
  getParticipantInfo (winnerAddress w) sample_drawn
  = (winnerName w, winnerNumber w, true) ∧
  winnerAddress w ∈ participantAddresses sample_drawn ∧
  winnerNumber w ∈ assignedNumbers sample_drawn ∧
  1 ≤ winnerNumber w ≤ 100.
Proof.
  apply (X9_winner_records_match_participants sample_hash sample_drawn
           {| winnerAddress := 11; winnerName := "b"; winnerNumber := 35 |}).
  - apply reachable_exec, reachable_run.
  - vm_compute. left.
Defined.

(** X10: the admin is the deployer for the whole life of the contract:
    no sequence of transactions, by any senders, changes it. *)
Theorem X10_admin_is_the_deployer
    (keccak256 : list uint256 → uint256) (deployer : address)
    (txs : list (Env * Call)) :
  admin (run keccak256 deployer txs) = deployer.
Proof.
  unfold run. induction txs as [|tx txs IH] using rev_ind; [done|].
  rewrite foldl_app. cbn [foldl]. by rewrite admin_exec.
Qed.

Section EnterInversion.
Variable keccak256 : list uint256 → uint256.

Lemma enterRaffle_Ok_inv env _name s s' ev :
  enterRaffle keccak256 env _name s = Ok (s', ev) →
  ∃ r,
    _generateUniqueRandomNumber keccak256 env s = Ok r ∧
    s' = registered s (msg_sender env) _name r ∧
    ev = [ParticipantEntered (msg_sender env) _name r].
Proof.
  unfold enterRaffle.
  destruct (exists_ (participants_at s (msg_sender env))); [done|].
  destruct (negb _); [done|].
  destruct (_generateUniqueRandomNumber keccak256 env s) as [r|e]; [|done].
  result_simpl. intros [= <- <-]. by exists r.
Qed.

End EnterInversion.

(** X11: after a successful registration, [getParticipantInfo] of the
    caller returns the name passed to the call, the number carried by the
    emitted event, and [true]; the info of every other identity, the winner
    count and [isWinner] are as before, and the participant count is one
    more. *)
Theorem X11_enter_then_getParticipantInfo
    (keccak256 : list uint256 → uint256) env _name s s' ev :
  enterRaffle keccak256 env _name s = Ok (s', ev) →
  ∃ r,
    ev = [ParticipantEntered (msg_sender env) _name r] ∧
    getParticipantInfo (msg_sender env) s' = (_name, r, true) ∧
    (∀ a, a ≠ msg_sender env →
          getParticipantInfo a s' = getParticipantInfo a s) ∧
    getParticipantCount s' = getParticipantCount s + 1 ∧
    getWinnerCount s' = getWinnerCount s ∧
    (∀ a, isWinner a s' = isWinner a s).
Proof.
  intros (r & _ & -> & ->)%enterRaffle_Ok_inv. exists r.
  unfold getParticipantInfo, participants_at, getParticipantCount.
  cbn [registered participants participantAddresses].
  rewrite lookup_insert_eq, length_app. cbn [from_option id name number exists_ length].
  split; [done|]. split; [done|]. split; [|split; [lia|done]].
  intros a Ha. by rewrite lookup_insert_ne.
Qed.

Lemma X11_enter_then_getParticipantInfo_witness :
  ∃ r,
    [ParticipantEntered 10 "a" 32] =
      [ParticipantEntered (msg_sender (sample_env 10)) "a" r] ∧
    getParticipantInfo (msg_sender (sample_env 10))
      (registered (constructor 1) 10 "a" 32) = ("a", r, true) ∧
    (∀ a, a ≠ msg_sender (sample_env 10) →
          getParticipantInfo a (registered (constructor 1) 10 "a" 32)
          = getParticipantInfo a (constructor 1)) ∧
    getParticipantCount (registered (constructor 1) 10 "a" 32)
    = getParticipantCount (constructor 1) + 1 ∧
    getWinnerCount (registered (constructor 1) 10 "a" 32)
    = getWinnerCount (constructor 1) ∧
    (∀ a, isWinner a (registered (constructor 1) 10 "a" 32)
          = isWinner a (constructor 1)).
Proof.
  apply (X11_enter_then_getParticipantInfo sample_hash (sample_env 10) "a"
           (constructor 1) (registered (constructor 1) 10 "a" 32)
           [ParticipantEntered 10 "a" 32]).
  by vm_compute.
Defined.

(** X12: in every reachable state, a participant record is left as it is
    by every transaction except a reset called by the admin: registrations
    by anyone and draws never change or remove an existing record. *)
Theorem X12_records_persist_until_reset
    (keccak256 : list uint256 → uint256) env c s (a : address) p :
  reachable keccak256 s →
  participants s !! a = Some p →
  (c = ResetLottery → msg_sender env ≠ admin s) →
  participants (exec keccak256 env c s) !! a = Some p.
Proof.
  intros Hreach Hp Hnot. pose proof (reachable_Inv keccak256 s Hreach) as HI.
  destruct c as [_name| |]; cbn [exec].
  - destruct (enterRaffle keccak256 env _name s) as [[s' ev]|e] eqn:Hcall;
      [|done].
    apply enterRaffle_inv in Hcall as (Hnone & r & _ & ->); [|done].
    cbn [registered participants]. rewrite lookup_insert_ne; [done|].
    intros Heq. rewrite Heq in Hnone. congruence.
  - destruct (drawWinner keccak256 env s) as [[[s' w] ev]|e] eqn:Hcall;
      [|done].
    by apply drawWinner_inv in Hcall as (_ & x & _ & -> & _).
  - by rewrite resetLottery_unauthorized by auto.
Qed.

Lemma X12_records_persist_until_reset_witness :
  participants
    (exec sample_hash (sample_env 1) DrawWinner sample_registered) !! 11
  = Some {| name := "b"; number := 35; exists_ := true |}.
Proof.
  apply (X12_records_persist_until_reset sample_hash (sample_env 1)
           DrawWinner sample_registered 11
           {| name := "b"; number := 35; exists_ := true |}).
  - apply reachable_run.
  - vm_compute. reflexivity.
  - intros Hreset. discriminate Hreset.
Defined.

(** *** The number pool over time *)

Lemma lookup_numbers_1_to_MAX (i : uint256) :
  i < MAX_NUMBER → numbers_1_to_MAX !! N.to_nat i = Some (i + 1).
Proof.
  intros Hi. unfold numbers_1_to_MAX, MAX_NUMBER in *.
  rewrite list_lookup_fmap, lookup_seq_lt by lia. cbn [fmap option_fmap option_map].
  f_equal. lia.
Qed.

Section FreshFacts.
Variable keccak256 : list uint256 → uint256.

Lemma enterRaffle_constructor env _name deployer :
  let r := keccak256 [block_timestamp env; block_prevrandao env;
                      msg_sender env; 0] mod 100 + 1 in
  enterRaffle keccak256 env _name (constructor deployer) =
  Ok (registered (constructor deployer) (msg_sender env) _name r,
      [ParticipantEntered (msg_sender env) _name r]).
Proof.
  intros r.
  destruct (enterRaffle_success keccak256 env _name (constructor deployer)
              (Inv_constructor deployer)) as (r' & Hr' & Heq); [done..|].
  rewrite numberPool_constructor, length_numbers_1_to_MAX in Hr'.
  cbn [constructor assignedNumbers length] in Hr'.
  change (N.of_nat 0) with 0 in Hr'.
  change (N.of_nat (N.to_nat MAX_NUMBER)) with 100 in Hr'.
  rewrite lookup_numbers_1_to_MAX in Hr'
    by (apply N.mod_upper_bound; discriminate).
  injection Hr' as <-. exact Heq.
Qed.

End FreshFacts.

(** X13: on a raffle that the admin has just reset, from any reachable
    state, a registration succeeds for any caller and gives the number
    (hash mod 100) + 1, where the hash is taken over the timestamp, the
    randomness beacon, the caller and 0; the participant count is then 1. *)
Theorem X13_first_number_after_reset
    (keccak256 : list uint256 → uint256) env0 env _name s :
  reachable keccak256 s →
  msg_sender env0 = admin s →
  let r := keccak256 [block_timestamp env; block_prevrandao env;
                      msg_sender env; 0] mod 100 + 1 in
  ∃ s',
    enterRaffle keccak256 env _name (exec keccak256 env0 ResetLottery s) =
      Ok (s', [ParticipantEntered (msg_sender env) _name r]) ∧
    1 ≤ r ≤ 100 ∧
    getParticipantInfo (msg_sender env) s' = (_name, r, true) ∧
    getParticipantCount s' = 1 ∧
    assignedNumbers s' = [r].
Proof.
  intros Hreach Hadmin r.
  pose proof (reachable_Inv keccak256 s Hreach) as HI.
  cbn [exec]. rewrite resetLottery_spec by done.
  exists (registered (constructor (admin s)) (msg_sender env) _name r).
  split; [apply enterRaffle_constructor|].
  split.
  { assert (r - 1 < 100) as Hlt.
    { subst r. rewrite N.add_sub. apply N.mod_upper_bound. discriminate. }
    assert (1 ≤ r) by (subst r; apply N.le_add_l). lia. }
  unfold getParticipantInfo, participants_at.
  cbn [registered constructor participants participantAddresses assignedNumbers].
  by rewrite lookup_insert_eq.
Qed.

Lemma X13_first_number_after_reset_witness :
  let r := sample_hash [block_timestamp (sample_env 12);
                        block_prevrandao (sample_env 12);
                        msg_sender (sample_env 12); 0] mod 100 + 1 in
  ∃ s',
    enterRaffle sample_hash (sample_env 12) "c"
      (exec sample_hash (sample_env 1) ResetLottery sample_drawn) =
      Ok (s', [ParticipantEntered (msg_sender (sample_env 12)) "c" r]) ∧
    1 ≤ r ≤ 100 ∧
    getParticipantInfo (msg_sender (sample_env 12)) s' = ("c", r, true) ∧
    getParticipantCount s' = 1 ∧
    assignedNumbers s' = [r].
Proof.
  apply (X13_first_number_after_reset sample_hash (sample_env 1)
           (sample_env 12) "c" sample_drawn).
  - apply reachable_exec, reachable_run.
  - vm_compute. reflexivity.
Defined.

Section EnterEvent.
Variable keccak256 : list uint256 → uint256.

Lemma enterRaffle_inv_event env _name s s' ev :
  Inv s →
  enterRaffle keccak256 env _name s = Ok (s', ev) →
  participants s !! msg_sender env = None ∧
  ∃ r,
    r ∈ numberPool s ∧
    s' = registered s (msg_sender env) _name r ∧
    ev = [ParticipantEntered (msg_sender env) _name r].
Proof.
  intros HI Hcall.
  pose proof Hcall as (Hnone & r' & Hr' & Hs')%enterRaffle_inv; [|done].
  split; [done|].
  apply enterRaffle_Ok_inv in Hcall as (r & _ & -> & ->).
  assert (r = r') as <-.
  { apply (f_equal assignedNumbers) in Hs'.
    cbn [registered assignedNumbers] in Hs'.
    by apply app_inj_1 in Hs' as [_ [= ->]]. }
  by exists r.
Qed.

End EnterEvent.

(** X14: in a reachable state, a successful registration removes exactly
    the assigned number from the number pool: the new pool is the old one
    without that number, in the same order, and is one shorter. *)
Theorem X14_enter_shrinks_pool_by_one
    (keccak256 : list uint256 → uint256) env _name s s' ev :
  reachable keccak256 s →
  enterRaffle keccak256 env _name s = Ok (s', ev) →
  ∃ r,
    ev = [ParticipantEntered (msg_sender env) _name r] ∧
    r ∈ numberPool s ∧
    numberPool s' = filter (λ i, i ≠ r) (numberPool s) ∧
    length (numberPool s) = S (length (numberPool s')).
Proof.
  intros Hreach Hcall. pose proof (reachable_Inv keccak256 s Hreach) as HI.
  apply enterRaffle_inv_event in Hcall as (Hnone & r & Hr & -> & ->); [|done].
  exists r. split; [done|]. split; [done|].
  assert (numberPool (registered s (msg_sender env) _name r)
          = filter (λ i, i ≠ r) (numberPool s)) as Hpool.
  { unfold numberPool. rewrite list_filter_filter. apply list_filter_iff.
    intros i. unfold numberAssigned_at. cbn [registered numberAssigned].
    destruct (decide (i = r)) as [->|Hne].
    - rewrite lookup_insert_eq. cbn. intuition congruence.
    - rewrite lookup_insert_ne by done. intuition congruence. }
  split; [done|].
  pose proof (length_numberPool s HI) as Hlen.
  pose proof (length_numberPool _
    (Inv_registered s (msg_sender env) _name r HI Hnone Hr)) as Hlen'.
  cbn [registered assignedNumbers] in Hlen'. rewrite length_app in Hlen'.
  cbn [length] in Hlen'. lia.
Qed.

Lemma X14_enter_shrinks_pool_by_one_witness :
  ∃ r,
    [ParticipantEntered 10 "a" 32] =
      [ParticipantEntered (msg_sender (sample_env 10)) "a" r] ∧
    r ∈ numberPool (constructor 1) ∧
    numberPool (registered (constructor 1) 10 "a" 32)
    = filter (λ i, i ≠ r) (numberPool (constructor 1)) ∧
    length (numberPool (constructor 1))
    = S (length (numberPool (registered (constructor 1) 10 "a" 32))).
Proof.
  apply (X14_enter_shrinks_pool_by_one sample_hash (sample_env 10) "a"
           (constructor 1) (registered (constructor 1) 10 "a" 32)
           [ParticipantEntered 10 "a" 32]).
  - apply reachable_deploy.
  - vm_compute. reflexivity.
Defined.

(** *** Counting draws *)

Lemma length_eligible s :
  Inv s →
  (length (eligible s) + length (winnerAddresses s)
   = length (participantAddresses s))%nat.
Proof.
  intros HI.
  rewrite <- (Permutation_length
                (filter_app_complement (λ p, p ∉ winnerAddresses s)
                   (participantAddresses s))).
  rewrite length_app. unfold eligible, eligibleOf. f_equal.
  apply Permutation_length. symmetry. apply NoDup_Permutation.
  - apply NoDup_filter, (inv_addresses_nodup s HI).
  - apply (inv_winners_nodup s HI).
  - intros a. rewrite list_elem_of_filter. split.
    + intros [Ha _]. by apply dec_stable.
    + intros Ha. split; [tauto | by apply (inv_winners_registered s HI)].
Qed.

Lemma Inv_winner_count s :
  Inv s → length (winners s) = length (winnerAddresses s).
Proof.
  intros HI. rewrite (inv_winner_addresses s HI). by rewrite length_fmap.
Qed.

(** X15: in every reachable state the eligible count computed by the first
    loop of [drawWinner] is the participant count minus the winner count,
    and the winner count is at most the participant count, which is at
    most 100. *)
Theorem X15_eligible_count_is_difference
    (keccak256 : list uint256 → uint256) (deployer : address)
    (txs : list (Env * Call)) :
  let s := run keccak256 deployer txs in
  getWinnerCount s ≤ getParticipantCount s ∧
  getParticipantCount s ≤ 100 ∧
  countEligible (participantAddresses s) (winnerAddresses s) 0
  = getParticipantCount s - getWinnerCount s.
Proof.
  intros s. pose proof (reachable_Inv keccak256 s (reachable_run _ _ _)) as HI.
  pose proof (length_eligible s HI) as Hel.
  pose proof (Inv_winner_count s HI) as Hw.
  pose proof (Inv_counts s HI) as Hc.
  pose proof (length_numberPool s HI) as Hpool.
  change (N.to_nat MAX_NUMBER) with 100%nat in Hpool.
  rewrite countEligible_spec. fold (eligible s).
  unfold getWinnerCount, getParticipantCount. lia.
Qed.

(** X16: in every reachable state, a draw called by the admin succeeds
    exactly when the winner count is below the participant count, and
    reverts with [NoEligibleParticipants] exactly when the two counts are
    equal. *)
Theorem X16_admin_draw_succeeds_iff_counts_differ
    (keccak256 : list uint256 → uint256) env s :
  reachable keccak256 s →
  msg_sender env = admin s →
  ((∃ s' w ev, drawWinner keccak256 env s = Ok (s', w, ev)) ↔
   getWinnerCount s < getParticipantCount s) ∧
  (drawWinner keccak256 env s = Revert NoEligibleParticipants ↔
   getWinnerCount s = getParticipantCount s).
Proof.
  intros Hreach Hadmin. pose proof (reachable_Inv keccak256 s Hreach) as HI.
  pose proof (length_eligible s HI) as Hel.
  pose proof (Inv_winner_count s HI) as Hw.
  unfold getWinnerCount, getParticipantCount.
  destruct (decide (eligible s = [])) as [Hnil|Hsome].
  - rewrite drawWinner_none_eligible by done.
    rewrite Hnil in Hel. cbn [length] in Hel. split.
    + split; [by intros (? & ? & ? & ?) | lia].
    + split; [lia | done].
  - destruct (drawWinner_some_eligible keccak256 env s Hadmin Hsome)
      as (a & _ & _ & ->).
    assert (length (eligible s) ≠ 0)%nat by (by destruct (eligible s)).
    split.
    + split; [lia | by eauto].
    + split; [done | lia].
Qed.

Lemma X16_admin_draw_succeeds_iff_counts_differ_witness :
  ((∃ s' w ev,
      drawWinner sample_hash (sample_env 1) sample_all_won = Ok (s', w, ev)) ↔
   getWinnerCount sample_all_won < getParticipantCount sample_all_won) ∧
  (drawWinner sample_hash (sample_env 1) sample_all_won
   = Revert NoEligibleParticipants ↔
   getWinnerCount sample_all_won = getParticipantCount sample_all_won).
Proof.
  apply (X16_admin_draw_succeeds_iff_counts_differ sample_hash (sample_env 1)
           sample_all_won).
  - apply reachable_run.
  - vm_compute. reflexivity.
Defined.

(** X17: after a reset by the admin of a reachable state, every view
    reads an empty raffle: both counts are 0, the winner list is empty,
    [getLatestWinner] reverts with [NoWinnersYet], [getWinnerByIndex]
    reverts with [IndexOutOfBounds] at every index, nobody is a winner and
    nobody has a participant record. *)
Theorem X17_reset_then_views
    (keccak256 : list uint256 → uint256) env s :
  reachable keccak256 s →
  msg_sender env = admin s →
  let s0 := exec keccak256 env ResetLottery s in
  getParticipantCount s0 = 0 ∧
  getWinnerCount s0 = 0 ∧
  getAllWinners s0 = [] ∧
  getLatestWinner s0 = Revert NoWinnersYet ∧
  (∀ i, getWinnerByIndex i s0 = Revert IndexOutOfBounds) ∧
  (∀ a, isWinner a s0 = false) ∧
  (∀ a, getParticipantInfo a s0 = ("", 0, false)).
Proof.
  intros Hreach Hadmin s0. pose proof (reachable_Inv keccak256 s Hreach) as HI.
  subst s0. cbn [exec]. rewrite resetLottery_spec by done.
  repeat split; try done.
  intros i. rewrite getWinnerByIndex_lookup. cbn [constructor winners].
  by rewrite lookup_nil.
Qed.

Lemma X17_reset_then_views_witness :
  let s0 := exec sample_hash (sample_env 1) ResetLottery sample_drawn in
  getParticipantCount s0 = 0 ∧
  getWinnerCount s0 = 0 ∧
  getAllWinners s0 = [] ∧
  getLatestWinner s0 = Revert NoWinnersYet ∧
  (∀ i, getWinnerByIndex i s0 = Revert IndexOutOfBounds) ∧
  (∀ a, isWinner a s0 = false) ∧
  (∀ a, getParticipantInfo a s0 = ("", 0, false)).
Proof.
  apply (X17_reset_then_views sample_hash (sample_env 1) sample_drawn).
  - apply reachable_exec, reachable_run.
  - vm_compute. reflexivity.
Defined.

Section DrawRuns.
Variable keccak256 : list uint256 → uint256.

Lemma draws_winner_count envs s :
  Inv s →
  Forall (λ env, msg_sender env = admin s) envs →
  let s' := foldl (λ s env, exec keccak256 env DrawWinner s) s envs in
  (length (winners s')
   = Nat.min (length (winners s) + length envs)
             (length (participantAddresses s)))%nat ∧
  participantAddresses s' = participantAddresses s.
Proof.
  intros HI Hall. revert s HI Hall.
  induction envs as [|env envs IH]; intros s HI Hall; cbn [foldl length].
  - pose proof (length_eligible s HI). pose proof (Inv_winner_count s HI).
    split; [lia | done].
  - apply Forall_cons in Hall as [Hadmin Hall].
    pose proof (length_eligible s HI) as Hel.
    pose proof (Inv_winner_count s HI) as Hw.
    destruct (decide (eligible s = [])) as [Hnil|Hsome].
    + assert (exec keccak256 env DrawWinner s = s) as ->
        by (cbn [exec]; by rewrite drawWinner_none_eligible).
      destruct (IH s HI Hall) as [Hlen Hps]. cbn zeta in Hlen, Hps.
      rewrite Hnil in Hel. cbn [length] in Hel. split; [lia | done].
    + destruct (drawWinner_some_eligible keccak256 env s Hadmin Hsome)
        as (a & Ha & _ & Heq).
      assert (exec keccak256 env DrawWinner s = drawn s a) as ->
        by (cbn [exec]; by rewrite Heq).
      assert (Inv (drawn s a)) as HI'
        by (apply Inv_drawn; [done | by eapply list_elem_of_lookup_2]).
      destruct (IH (drawn s a) HI' Hall) as [Hlen Hps].
      cbn zeta in Hlen, Hps. cbn [drawn winners participantAddresses] in Hlen.
      rewrite length_app in Hlen. cbn [length] in Hlen.
      assert (length (eligible s) ≠ 0)%nat by (by destruct (eligible s)).
      split; [lia | done].
Qed.

End DrawRuns.

(** X18: from a reachable state, after any number k of consecutive draw
    transactions sent by the admin, the winner count is the smaller of the
    old winner count plus k and the participant count: every draw adds a
    winner until all participants have won, and the draws after that change
    nothing.  The participant count stays the same. *)
Theorem X18_repeated_draws_exhaust
    (keccak256 : list uint256 → uint256) (envs : list Env) s :
  reachable keccak256 s →
  Forall (λ env, msg_sender env = admin s) envs →
  let s' := foldl (λ s env, exec keccak256 env DrawWinner s) s envs in
  getWinnerCount s'
  = N.min (getWinnerCount s + N.of_nat (length envs)) (getParticipantCount s) ∧
  getParticipantCount s' = getParticipantCount s.
Proof.
  intros Hreach Hall s'.
  destruct (draws_winner_count keccak256 envs s
              (reachable_Inv keccak256 s Hreach) Hall) as [Hlen Hps].
  cbn zeta in Hlen, Hps. fold s' in Hlen, Hps.
  unfold getWinnerCount, getParticipantCount. rewrite Hlen, Hps.
  split; [lia | done].
Qed.

Lemma X18_repeated_draws_exhaust_witness :
  let s' := foldl (λ s env, exec sample_hash env DrawWinner s)
              sample_registered
              [sample_env 1; sample_env 1; sample_env 1; sample_env 1] in
  getWinnerCount s'
  = N.min (getWinnerCount sample_registered + 4)
          (getParticipantCount sample_registered) ∧
  getParticipantCount s' = getParticipantCount sample_registered.
Proof.
  apply (X18_repeated_draws_exhaust sample_hash
           [sample_env 1; sample_env 1; sample_env 1; sample_env 1]
           sample_registered).
  - apply reachable_run.
  - repeat constructor.
Defined.

(** X19: the participant list, the assigned numbers and the winner log
    only grow at their end: every transaction other than a reset by the
    admin leaves each of them a prefix of what it becomes.  This holds in
    every state. *)
Theorem X19_lists_are_append_only
    (keccak256 : list uint256 → uint256) env c s :
  (c = ResetLottery → msg_sender env ≠ admin s) →
  participantAddresses s `prefix_of`
    participantAddresses (exec keccak256 env c s) ∧
  assignedNumbers s `prefix_of` assignedNumbers (exec keccak256 env c s) ∧
  winners s `prefix_of` winners (exec keccak256 env c s) ∧
  winnerAddresses s `prefix_of` winnerAddresses (exec keccak256 env c s).
Proof.
  intros Hnot. destruct c as [_name| |]; cbn [exec].
  - destruct (enterRaffle keccak256 env _name s) as [[s' ev]|e] eqn:Hcall;
      [|done].
    apply enterRaffle_Ok_inv in Hcall as (r & _ & -> & _).
    cbn [registered participantAddresses assignedNumbers winners
         winnerAddresses].
    repeat split; try done; by apply prefix_app_r.
  - destruct (drawWinner keccak256 env s) as [[[s' w] ev]|e] eqn:Hcall;
      [|done].
    apply drawWinner_inv in Hcall as (_ & a & _ & -> & _).
    cbn [drawn participantAddresses assignedNumbers winners winnerAddresses].
    repeat split; try done; by apply prefix_app_r.
  - by rewrite resetLottery_unauthorized by auto.
Qed.

Lemma X19_lists_are_append_only_witness :
  participantAddresses sample_registered `prefix_of`
    participantAddresses
      (exec sample_hash (sample_env 1) DrawWinner sample_registered) ∧
  assignedNumbers sample_registered `prefix_of`
    assignedNumbers
      (exec sample_hash (sample_env 1) DrawWinner sample_registered) ∧
  winners sample_registered `prefix_of`
    winners (exec sample_hash (sample_env 1) DrawWinner sample_registered) ∧
  winnerAddresses sample_registered `prefix_of`
    winnerAddresses
      (exec sample_hash (sample_env 1) DrawWinner sample_registered).
Proof.
  apply (X19_lists_are_append_only sample_hash (sample_env 1) DrawWinner
           sample_registered).
  intros Hreset. discriminate Hreset.
Defined.
